(** * gostringlist: the StringList type of src/gostringlist.go

    A shallow embedding of the Go package and the properties of its
    methods.  A Go slice is a window (pointer, length, capacity) on a
    backing array that lives in a store shared by every slice cut from
    it, so the embedding keeps the store explicit: methods are
    computations over a [world], and a run-time panic is [None].

    The methods are those of the revision the tests exercise, in which
    [Insert] checks its index and the mutating methods have pointer
    receivers.  A Go int is a [Z]: every index handled here is at most
    the length of a slice plus one, far from the bounds of the type.
    [Sort] (a call to package sort) and [Join] are not needed below. *)

From Stdlib Require Import ZArith String Ascii Lia.
From stdpp Require Import base list strings.

Open Scope string_scope.
Open Scope list_scope.
Open Scope nat_scope.

(** ** Slices and the store *)

(** The address of a backing array: its position in the store. *)
Abbreviation loc := nat (only parsing).

(** The store: every backing array allocated so far. *)
Abbreviation heap := (list (list string)).

(** A slice header.  [base = None] is the nil slice. *)
Record slice := Slice {
  base : option loc;
  off : nat;
  slen : nat;
  scap : nat
}.

Definition nil_slice : slice := Slice None 0 0 0.

(** The Go value [error]: nil, or the text of the error. *)
Abbreviation error := string (only parsing).

(** The zero value of type string. *)
Definition zero_string : string := EmptyString.

Definition array_of (h : heap) (s : slice) : list string :=
  match base s with
  | Some a => default [] (h !! a)
  | None => []
  end.

(** The elements a slice shows: [s[0]], ..., [s[len(s)-1]]. *)
Definition elems (h : heap) (s : slice) : list string :=
  take (slen s) (drop (off s) (array_of h s)).

(** A slice is valid in a store when its window lies inside an
    allocated array. *)
Definition valid (h : heap) (s : slice) : Prop :=
  slen s ≤ scap s ∧ off s + scap s ≤ length (array_of h s) ∧
  match base s with Some a => a < length h | None => True end.

(** [len(s)] and [cap(s)], of Go type int. *)
Definition len (s : slice) : Z := Z.of_nat (slen s).
Definition cap (s : slice) : Z := Z.of_nat (scap s).

(** The header of [s[lo:hi]]: same array, the window moved and resized. *)
Definition window (s : slice) (lo hi : nat) : slice :=
  Slice (base s) (off s + lo) (hi - lo) (scap s - lo).

(** ** The regular-expression engine

    Package regexp of the Go library is a collaborator of this package,
    not part of it: it is taken as an interface.  [Compile] parses a
    pattern or reports the error; [MatchString re s] tells whether [s]
    contains any match of [re]; [ReplaceAllString re src repl] is [src]
    with the matches of [re] replaced by [repl]. *)
Class Regexp_engine := {
  Regexp : Type;
  Compile : string → Regexp + error;
  MatchString : Regexp → string → bool;
  ReplaceAllString : Regexp → string → string → string
}.

Section Runtime.

(** What the caller's function values keep between calls (a closure's
    captured variables); the package never looks at it. *)
Context {E : Type}.

(** The run time's growth policy: how many spare slots [append] adds
    when it reallocates, given the old capacity and the length needed.
    The language leaves it open, and nothing below depends on it. *)
Variable growcap : nat → nat → nat.

Record world := World { mem : heap; env : E }.

(** Computations: a state transformer that may panic. *)
Definition M (A : Type) : Type := world → option (A * world).

Definition ret {A} (a : A) : M A := λ w, Some (a, w).

Definition bind {A B} (m : M A) (k : A → M B) : M B := λ w,
  match m w with
  | Some (a, w') => k a w'
  | None => None
  end.

Notation "'let*' x ':=' m 'in' k" := (bind m (fun x => k))
  (at level 10, x binder, m at level 200, k at level 200).

Definition set_array (w : world) (a : loc) (arr : list string) : world :=
  World (<[a := arr]> (mem w)) (env w).

Definition alloc (w : world) (arr : list string) : loc * world :=
  (length (mem w), World (mem w ++ [arr]) (env w)).

(** [make([]string, n, c)] *)
Definition make (n c : Z) : M slice := λ w,
  if decide (0 ≤ n ≤ c)%Z then
    let '(a, w') := alloc w (replicate (Z.to_nat c) zero_string) in
    Some (Slice (Some a) 0 (Z.to_nat n) (Z.to_nat c), w')
  else None.

(** [s[i]] as a value; an index out of range panics. *)
Definition load (s : slice) (i : Z) : M string := λ w,
  if decide (0 ≤ i < len s)%Z then
    match elems (mem w) s !! Z.to_nat i with
    | Some v => Some (v, w)
    | None => None
    end
  else None.

(** [s[i] = v] *)
Definition store (s : slice) (i : Z) (v : string) : M unit := λ w,
  if decide (0 ≤ i < len s)%Z then
    match base s with
    | Some a =>
        match mem w !! a with
        | Some arr => Some (tt, set_array w a (<[off s + Z.to_nat i := v]> arr))
        | None => None
        end
    | None => None
    end
  else None.

(** [s[lo:hi]]; [s[lo:]] is [s[lo:len(s)]] and [s[:hi]] is [s[0:hi]]. *)
Definition reslice (s : slice) (lo hi : Z) : M slice := λ w,
  if decide (0 ≤ lo ≤ hi ∧ hi ≤ cap s)%Z then
    Some (window s (Z.to_nat lo) (Z.to_nat hi), w)
  else None.

(** [append(s, v)]: in place when the array has room after the last
    element, otherwise into a new, larger array. *)
Definition append (s : slice) (v : string) : M slice := λ w,
  if decide (slen s < scap s) then
    match base s with
    | Some a =>
        match mem w !! a with
        | Some arr =>
            Some (Slice (Some a) (off s) (S (slen s)) (scap s),
                  set_array w a (<[off s + slen s := v]> arr))
        | None => None
        end
    | None => None
    end
  else
    let spare := growcap (scap s) (S (slen s)) in
    let '(a, w') :=
      alloc w (elems (mem w) s ++ v :: replicate spare zero_string) in
    Some (Slice (Some a) 0 (S (slen s)) (S (slen s) + spare), w').

(** [copy(dst, src)]: min(len(dst), len(src)) elements, read before any
    is written (the two may overlap); returns the number copied. *)
Definition copy (dst src : slice) : M Z := λ w,
  let n := Nat.min (slen dst) (slen src) in
  let vs := take n (elems (mem w) src) in
  match base dst with
  | Some a =>
      match mem w !! a with
      | Some arr => Some (Z.of_nat n, set_array w a (list_inserts (off dst) vs arr))
      | None => None
      end
  | None => Some (Z.of_nat n, w)
  end.

(** [for i := range s { body }], the slice and its length read once.
    The body returns [inr r] for [return r], [inl a] to go on with the
    loop-carried variables [a]. *)
Fixpoint for_loop {A R} (todo : nat) (i : Z) (body : Z → A → M (A + R)) (a : A)
  : M (A + R) :=
  match todo with
  | O => ret (inl a)
  | S todo' =>
      let* r := body i a in
      match r with
      | inl a' => for_loop todo' (i + 1)%Z body a'
      | inr x => ret (inr x)
      end
  end.

Definition for_range {A R} (s : slice) (body : Z → A → M (A + R)) (a : A)
  : M (A + R) :=
  for_loop (slen s) 0%Z body a.

(** [strings.Join(parts, sep)] of the Go library. *)
Fixpoint strings_Join (parts : list string) (sep : string) : string :=
  match parts with
  | [] => EmptyString
  | [p] => p
  | p :: ps => p +:+ sep +:+ strings_Join ps sep
  end.

(** ** The package *)

Record StringList := { Items : slice }.

(** The zero value [var newList StringList]. *)
Definition zero_StringList : StringList := {| Items := nil_slice |}.

Definition New : M StringList :=
  let* items := make 0 0 in
  ret {| Items := items |}.

Definition Append (list : StringList) (str : string) : M StringList :=
  let* items := append (Items list) str in
  ret {| Items := items |}.

Definition Copy (list : StringList) : M StringList :=
  let newList := zero_StringList in
  let* _ := copy (Items newList) (Items list) in
  ret newList.

Definition IsEqual (list list2 : StringList) : M bool :=
  if negb (len (Items list) =? len (Items list2))%Z then ret false
  else
    let* r := for_range (Items list) (λ i (_ : unit),
      let* a := load (Items list) i in
      let* b := load (Items list2) i in
      if negb (String.eqb a b) then ret (inr false) else ret (inl tt)) tt in
    match r with
    | inr b => ret b
    | inl _ => ret true
    end.

Definition IsEmpty (list : StringList) : M bool :=
  ret (len (Items list) =? 0)%Z.

Definition IndexOf (list : StringList) (str : string) : M Z :=
  let* r := for_range (Items list) (λ i (_ : unit),
    let* v := load (Items list) i in
    if String.eqb str v then ret (inr i) else ret (inl tt)) tt in
  match r with
  | inr i => ret i
  | inl _ => ret (-1)%Z
  end.

Definition dquote : string := String "034"%char EmptyString.

Definition ToString (list : StringList) : M string :=
  let n := (len (Items list) * 2 + 1)%Z in
  let* parts := make n n in
  let* _ := store parts 0 "[" in
  let* _ := for_range (R := Empty_set) (Items list) (λ i partsIndex,
    let* v := load (Items list) i in
    let* _ := store parts partsIndex (dquote +:+ v +:+ dquote) in
    let* _ := store parts (partsIndex + 1) "," in
    ret (inl (partsIndex + 2)%Z)) 1%Z in
  let* _ := store parts (len parts - 1) "]" in
  λ w, Some (strings_Join (elems (mem w) parts) EmptyString, w).

Definition Contains (list : StringList) (str : string) : M bool :=
  let* r := for_range (Items list) (λ i (_ : unit),
    let* v := load (Items list) i in
    if String.eqb str v then ret (inr true) else ret (inl tt)) tt in
  match r with
  | inr b => ret b
  | inl _ => ret false
  end.

(** Methods on [*StringList] return the receiver as they leave it. *)
Definition Insert (list : StringList) (str : string) (index : Z)
  : M (StringList * option error) :=
  if ((index <? 0) || (index >? len (Items list)))%Z then
    ret (list, Some "index out of range")
  else
    let* items := append (Items list) str in
    let* dst := reslice items (index + 1) (len items) in
    let* src := reslice items index (len items) in
    let* _ := copy dst src in
    let* _ := store items index str in
    ret ({| Items := items |}, None).

Definition Remove (list : StringList) (str : string) : M StringList :=
  let* index := IndexOf list str in
  if (index <? 0)%Z then ret list
  else
    let* dst := reslice (Items list) index (len (Items list)) in
    let* src := reslice (Items list) (index + 1) (len (Items list)) in
    let* _ := copy dst src in
    let* items := reslice (Items list) 0 (len (Items list) - 1) in
    ret {| Items := items |}.

Definition RemoveUnordered (list : StringList) (str : string) : M StringList :=
  let* index := IndexOf list str in
  if (index <? 0)%Z then ret list
  else
    let length := len (Items list) in
    let* last := load (Items list) (length - 1) in
    let* _ := store (Items list) index last in
    let* items := reslice (Items list) 0 (length - 1) in
    ret {| Items := items |}.

(** A function value of type [func(int, []string) (bool, string)]: it
    runs in the caller's store, on the slice header it is handed. *)
Definition filter_func : Type := Z → slice → M (bool * string).

Definition Filter (list : StringList) (op : filter_func) : M StringList :=
  let* items := make 0 (len (Items list)) in
  let* r := for_range (R := Empty_set) (Items list) (λ i newItems,
    let* '(addItem, out) := op i (Items list) in
    if addItem : bool then
      let* newItems' := append newItems out in ret (inl newItems')
    else ret (inl newItems)) items in
  match r with
  | inl newItems => ret {| Items := newItems |}
  | inr x => match x with end
  end.

Context `{!Regexp_engine}.

Definition MatchFilter (list : StringList) (pattern : string)
  : M (StringList * option error) :=
  let newList := zero_StringList in
  match Compile pattern with
  | inr err => ret (newList, Some err)
  | inl re =>
      let* items := make 0 (len (Items list)) in
      let* r := for_range (R := Empty_set) (Items list) (λ i newItems,
        let* item := load (Items list) i in
        if MatchString re item then
          let* newItems' := append newItems item in ret (inl newItems')
        else ret (inl newItems)) items in
      match r with
      | inl newItems => ret ({| Items := newItems |}, None)
      | inr x => match x with end
      end
  end.

Definition ReplaceAllFilter (list : StringList) (pattern repl : string)
  : M (StringList * option error) :=
  let* items := make 0 (len (Items list)) in
  match Compile pattern with
  | inr err => ret ({| Items := items |}, Some err)
  | inl re =>
      let* r := for_range (R := Empty_set) (Items list) (λ i newItems,
        let* item := load (Items list) i in
        let newString := ReplaceAllString re item repl in
        let* newItems' := append newItems newString in
        ret (inl newItems')) items in
      match r with
      | inl newItems => ret ({| Items := newItems |}, None)
      | inr x => match x with end
      end
  end.

End Runtime.

Notation "'let*' x ':=' m 'in' k" := (bind m (fun x => k))
  (at level 10, x binder, m at level 200, k at level 200).

(** ** Reference functions on plain lists

    What the methods are compared with: the same searches written on
    the list of elements, with no store. *)

(** The position of the first element equal to [str]. *)
Fixpoint first_index (str : string) (l : list string) : option nat :=
  match l with
  | [] => None
  | v :: l' => if String.eqb str v then Some 0 else S <$> first_index str l'
  end.

(** The first index, counted from [i], at which [d] answers. *)
Fixpoint first_hit {R} (d : nat → string → option R) (i : nat) (l : list string)
  : option R :=
  match l with
  | [] => None
  | v :: l' =>
      match d i v with
      | Some r => Some r
      | None => first_hit d (S i) l'
      end
  end.

(** The rendering [ToString] is meant to give: the items between double
    quotes, separated by commas, between brackets. *)
Definition quoted (v : string) : string := dquote +:+ v +:+ dquote.

Definition rendering (L : list string) : string :=
  "[" +:+ strings_Join (quoted <$> L) "," +:+ "]".

(** The slots of [parts] an item fills: itself quoted, then a comma. *)
Definition item_parts (v : string) : list string := [quoted v; ","].

(** What the loop of [ToString] stores in [parts], from item [i] on. *)
Fixpoint fill (i : nat) (items : list string) (parts : list string) : list string :=
  match items with
  | [] => parts
  | v :: rest =>
      fill (S i) rest (<[2 * i + 2 := ","]> (<[2 * i + 1 := quoted v]> parts))
  end.

(** All the strings of a list put end to end. *)
Definition flat (ps : list string) : string := foldr String.append EmptyString ps.

(** What [Filter] is compared with.  [f] stands for the caller's
    function seen from outside: given the index, the elements of the
    slice and its own state, it answers (keep, value) and leaves a new
    state.  [calls_in_order f L ixs e] applies [f] to each index of [ixs]
    in turn, every time with the whole list [L], hands the state from
    one call to the next, and collects the kept values in the order of
    the calls. *)
Fixpoint calls_in_order {E} (f : Z → list string → E → (bool * string) * E)
    (L : list string) (ixs : list nat) (e : E) : list string * E :=
  match ixs with
  | [] => ([], e)
  | i :: ixs' =>
      let '((keep, out), e1) := f (Z.of_nat i) L e in
      let '(outs, e2) := calls_in_order f L ixs' e1 in
      (if keep : bool then out :: outs else outs, e2)
  end.

(** The function value that behaves as [f]: it reads the slice it is
    handed and writes to no array. *)
Definition reader {E} (f : Z → list string → E → (bool * string) * E)
  : @filter_func E :=
  λ i s w,
    let '(r, e') := f i (elems (mem w) s) (env w) in
    Some (r, World (mem w) e').

(** What [MatchFilter] decides at index [i]: keep the item when the
    pattern matches it. *)
Definition match_at `{!Regexp_engine} (re : Regexp) {E}
  : Z → list string → E → (bool * string) * E :=
  λ i L e,
    match L !! Z.to_nat i with
    | Some item => ((MatchString re item, item), e)
    | None => ((false, zero_string), e)
    end.


(** What a function value answers when called in the store [h] with
    the state [e], the arrays it adds and the state it leaves. *)
Definition answer {E} (op : @filter_func E) (i : Z) (s : slice) (h : heap) (e : E)
  : (bool * string) * heap * E :=
  match op i s (World h e) with
  | Some (r, w') => (r, drop (length h) (mem w'), env w')
  | None => ((false, zero_string), [], e)
  end.

(** The array [Filter] makes for its result, with [n] slots, as it
    stands when [kept] holds the values appended so far. *)
Definition result_array (n : nat) (kept : list string) : list string :=
  kept ++ replicate (n - length kept) zero_string.

(** The calls [Filter] makes to a function that writes nothing: [op]
    is called on each index of [ixs] in turn, every time with the
    header [s], in the store [h] of the start followed by the array of
    the result as it stands and by the arrays [more] added by the
    calls before; its state goes from one call to the next, and the
    values kept are added at the end of [kept] in the order of the
    calls. *)
Fixpoint calls_in_store {E} (op : @filter_func E) (s : slice) (h : heap)
    (n : nat) (ixs : list nat) (kept : list string) (more : heap) (e : E)
  : list string * heap * E :=
  match ixs with
  | [] => (kept, more, e)
  | i :: ixs' =>
      let '((keep, out), added, e1) :=
        answer op (Z.of_nat i) s (h ++ result_array n kept :: more) e in
      calls_in_store op s h n ixs'
        (if keep : bool then kept ++ [out] else kept) (more ++ added) e1
  end.

(** ** A small engine behind the interface

    Enough of a regular-expression engine to run the filters on the
    scenarios of the tests: a pattern is a sequence of atoms, each a
    literal character or one of the classes [[:upper:]], [[:lower:]],
    [[:digit:]], each possibly followed by a star.  It has no groups,
    so a replacement text is taken as it is. *)
Module Engine.

Inductive class := Lit (c : ascii) | Upper | Lower | Digit.

(** An atom and whether it is starred. *)
Definition atom : Type := class * bool.

Definition between (lo hi : nat) (c : ascii) : bool :=
  (lo <=? nat_of_ascii c) && (nat_of_ascii c <=? hi).

Definition in_class (k : class) (c : ascii) : bool :=
  match k with
  | Lit d => Ascii.eqb c d
  | Upper => between 65 90 c
  | Lower => between 97 122 c
  | Digit => between 48 57 c
  end.

Definition strip (pre s : string) : option string :=
  if String.prefix pre s
  then Some (String.substring (String.length pre)
               (String.length s - String.length pre) s)
  else None.

(** The first atom of a pattern and what follows it. *)
Definition first_class (p : string) : option (class * string) + error :=
  match p with
  | EmptyString => inl None
  | String c rest =>
      if Ascii.eqb c "["%char then
        match strip "[[:upper:]]" p, strip "[[:lower:]]" p, strip "[[:digit:]]" p with
        | Some r, _, _ => inl (Some (Upper, r))
        | _, Some r, _ => inl (Some (Lower, r))
        | _, _, Some r => inl (Some (Digit, r))
        | _, _, _ =>
            inr ("error parsing regexp: missing closing ]: `" +:+ p +:+ "`")
        end
      else if Ascii.eqb c "*"%char then
        inr "error parsing regexp: missing argument to repetition operator: `*`"
      else inl (Some (Lit c, rest))
  end.

Fixpoint parse (fuel : nat) (p : string) : list atom + error :=
  match fuel with
  | O => inl []
  | S fuel' =>
      match first_class p with
      | inr err => inr err
      | inl None => inl []
      | inl (Some (k, rest)) =>
          let '(starred, rest') :=
            match rest with
            | String c r => if Ascii.eqb c "*"%char then (true, r) else (false, rest)
            | EmptyString => (false, rest)
            end in
          match parse fuel' rest' with
          | inl atoms => inl ((k, starred) :: atoms)
          | inr err => inr err
          end
      end
  end.

(** The length of the match of [r] at the start of [s], stars taking
    as much as they can. *)
Fixpoint match_here (r : list atom) : list ascii → option nat :=
  match r with
  | [] => λ _, Some 0
  | (k, false) :: r' => λ s,
      match s with
      | c :: s' => if in_class k c then S <$> match_here r' s' else None
      | [] => None
      end
  | (k, true) :: r' =>
      fix star (s : list ascii) : option nat :=
        match s with
        | c :: s' =>
            if in_class k c then
              match star s' with
              | Some n => Some (S n)
              | None => match_here r' s
              end
            else match_here r' s
        | [] => match_here r' []
        end
  end.

Fixpoint search (r : list atom) (s : list ascii) : bool :=
  match match_here r s with
  | Some _ => true
  | None =>
      match s with
      | [] => false
      | _ :: s' => search r s'
      end
  end.

(** Replace the matches from left to right; an empty match right after
    a match does not count. *)
Fixpoint replace_from (fuel : nat) (r : list atom) (repl : list ascii)
    (after_match : bool) (s : list ascii) : list ascii :=
  match fuel with
  | O => s
  | S fuel' =>
      let skip :=
        match s with
        | [] => []
        | c :: s' => c :: replace_from fuel' r repl false s'
        end in
      match match_here r s with
      | Some (S n) => repl ++ replace_from fuel' r repl true (drop (S n) s)
      | Some O => if after_match then skip else repl ++ skip
      | None => skip
      end
  end.

Definition engine : Regexp_engine := {|
  Regexp := list atom;
  Compile := λ p, parse (String.length p) p;
  MatchString := λ re s, search re (list_ascii_of_string s);
  ReplaceAllString := λ re src repl,
    string_of_list_ascii
      (replace_from (S (String.length src)) re (list_ascii_of_string repl)
         false (list_ascii_of_string src))
|}.

End Engine.

(** ** Data for the scenarios *)

(** A growth policy: as many spare slots as the old capacity. *)
Definition spare_as_before (c n : nat) : nat := c.

(** The list whose [Items] is the whole of array [a], of [n] elements. *)
Definition list_at (a : loc) (n : nat) : StringList :=
  {| Items := Slice (Some a) 0 n n |}.

(** [strings.ToUpper] on ASCII letters. *)
Definition upper_ascii (c : ascii) : ascii :=
  if Engine.between 97 122 c then ascii_of_nat (nat_of_ascii c - 32) else c.

Fixpoint ToUpper (s : string) : string :=
  match s with
  | EmptyString => EmptyString
  | String c s' => String (upper_ascii c) (ToUpper s')
  end.



(** A store holding the given arrays, for a caller with no state. *)
Definition store_of (arrs : heap) : @world unit := World arrs tt.

(** [toUpperOp] of the tests: [return true, strings.ToUpper(list[index])].
    [up] stands for [strings.ToUpper]. *)
Definition toUpperOp {E} (up : string → string) : @filter_func E :=
  λ index list,
    let* v := load list index in
    ret (true, up v).

(** What a function that keeps every item, changed by [g], decides at
    index [i]. *)
Definition keep_mapped {E} (g : string → string)
  : Z → list string → E → (bool * string) * E :=
  λ i L e,
    match L !! Z.to_nat i with
    | Some item => ((true, g item), e)
    | None => ((false, zero_string), e)
    end.

(** A caller appending values one after the other:
    [for _, v := range vs { list.Append(v) }]. *)
Fixpoint Appends {E} (growcap : nat → nat → nat) (list : StringList)
    (vs : Datatypes.list string) : @M E StringList :=
  match vs with
  | [] => ret list
  | v :: vs' =>
      let* list' := Append growcap list v in
      Appends growcap list' vs'
  end.

(** ** The earlier revision

    The second text of src/gostringlist.go is an earlier state of the
    package.  Its [Contains], [IndexOf], [Filter], [Copy] and [IsEqual]
    are the ones above; [Remove], [RemoveUnordered], [Insert] and [Sort]
    have value receivers, so what they assign to [list.Items] is lost
    when they return; [Insert] does not check its index and copies the
    other way; [MatchFilter] compiles the pattern anew for each item. *)
Module Earlier.

Definition Remove {E} (list : StringList) (str : string) : @M E unit :=
  let* index := IndexOf list str in
  if (index <? 0)%Z then ret tt
  else
    let* dst := reslice (Items list) index (len (Items list)) in
    let* src := reslice (Items list) (index + 1) (len (Items list)) in
    let* _ := copy dst src in
    let* _ := reslice (Items list) 0 (len (Items list) - 1) in
    ret tt.

Definition Insert {E} (growcap : nat → nat → nat) (list : StringList)
    (str : string) (index : Z) : @M E unit :=
  let* items := append growcap (Items list) str in
  let* dst := reslice items index (len items) in
  let* src := reslice items (index + 1) (len items) in
  let* _ := copy dst src in
  let* _ := store items index str in
  ret tt.

(** [regexp.MatchString(pattern, s)]: compile, then match. *)
Definition regexp_MatchString `{!Regexp_engine} (pattern s : string)
  : bool + error :=
  match Compile pattern with
  | inl re => inl (MatchString re s)
  | inr err => inr err
  end.

Definition MatchFilter `{!Regexp_engine} {E} (growcap : nat → nat → nat)
    (list : StringList) (pattern : string) : @M E (StringList * option error) :=
  let* items := make 0 (len (Items list)) in
  let* r := for_range (Items list) (λ i newItems,
    let* item := load (Items list) i in
    match regexp_MatchString pattern item with
    | inr err => ret (inr ({| Items := newItems |}, Some err))
    | inl matched =>
        if matched : bool then
          let* item' := load (Items list) i in
          let* newItems' := append growcap newItems item' in
          ret (inl newItems')
        else ret (inl newItems)
    end) items in
  match r with
  | inl newItems => ret ({| Items := newItems |}, None)
  | inr result => ret result
  end.

End Earlier.

(** ** Facts about lists used as arrays *)

Lemma lookup_window (l : list string) (o n j : nat) :
  take n (drop o l) !! j = if decide (j < n) then l !! (o + j) else None.
Proof.
  case_decide.
  - by rewrite lookup_take_lt, lookup_drop.
  - apply lookup_take_ge. lia.
Qed.

Lemma list_inserts_split (k : nat) (vs l : list string) :
  k + length vs ≤ length l →
  list_inserts k vs l = take k l ++ vs ++ drop (k + length vs) l.
Proof.
  intros Hk. apply list_eq. intros j.
  destruct (decide (j < k)) as [Hlt|Hge].
  - rewrite list_lookup_inserts_lt by done.
    rewrite lookup_app_l by (rewrite length_take; lia).
    by rewrite lookup_take_lt.
  - rewrite lookup_app_r by (rewrite length_take; lia).
    rewrite length_take, Nat.min_l by lia.
    destruct (decide (j < k + length vs)) as [Hin|Hout].
    + rewrite list_lookup_inserts by lia.
      by rewrite lookup_app_l by lia.
    + rewrite list_lookup_inserts_ge by lia.
      rewrite lookup_app_r by lia. rewrite lookup_drop. f_equal. lia.
Qed.

(** Opening a gap at [i]: what [Insert] does to the elements after [append]. *)
Lemma shift_right_insert (L : list string) (v : string) (i : nat) :
  i ≤ length L →
  <[i := v]> (list_inserts (S i)
                (take (Nat.min (length L - i) (S (length L) - i))
                      (drop i (L ++ [v])))
                (L ++ [v]))
  = take i L ++ v :: drop i L.
Proof.
  intros Hi.
  rewrite Nat.min_l by lia.
  rewrite drop_app_le by done.
  rewrite take_app_length' by (rewrite length_drop; lia).
  rewrite list_inserts_split by (rewrite length_app, length_drop; simpl; lia).
  rewrite length_drop.
  rewrite (drop_ge (L ++ [v])) by (rewrite length_app; simpl; lia).
  rewrite app_nil_r.
  assert (Hlen : length (take i L) = i) by (rewrite length_take; lia).
  destruct (decide (i = length L)) as [->|Hne].
  - rewrite take_ge by (rewrite length_app; simpl; lia).
    rewrite drop_all, app_nil_r, firstn_all.
    rewrite insert_app_r_alt by lia. by rewrite Nat.sub_diag.
  - rewrite take_app_le by lia.
    destruct (lookup_lt_is_Some_2 L i) as [x Hx]; [lia|].
    rewrite (take_S_r L i x) by done.
    rewrite <- (assoc_L (++)).
    rewrite insert_app_r_alt by lia. by rewrite Hlen, Nat.sub_diag.
Qed.

(** Closing the gap at [i]: what [Remove] does to the elements. *)
Lemma shift_left_remove (L : list string) (i : nat) :
  i < length L →
  take (length L - 1)
       (list_inserts i
          (take (Nat.min (length L - i) (length L - S i)) (drop (S i) L)) L)
  = take i L ++ drop (S i) L.
Proof.
  intros Hi.
  rewrite Nat.min_r by lia.
  rewrite (take_ge (drop (S i) L)) by (rewrite length_drop; lia).
  rewrite list_inserts_split by (rewrite length_drop; lia).
  rewrite length_drop.
  rewrite !(assoc_L (++)).
  rewrite take_app_length'; [done|].
  rewrite length_app, length_take, length_drop. lia.
Qed.

(** ** Facts about the store *)

Lemma array_of_insert (h : heap) (a : loc) (arr : list string) (s : slice) :
  array_of (<[a := arr]> h) s =
  if decide (base s = Some a ∧ a < length h) then arr else array_of h s.
Proof.
  unfold array_of. destruct (base s) as [b|].
  - rewrite list_lookup_insert.
    destruct (decide (a = b ∧ a < length h)) as [[-> Hlt]|Hno].
    + by rewrite decide_True by done.
    + rewrite decide_False; [done|]. intros [[= ->] ?]. by apply Hno.
  - rewrite decide_False; [done|]. by intros [? _].
Qed.

Lemma array_of_alloc (h : heap) (arr : list string) (s : slice) :
  valid h s → array_of (h ++ [arr]) s = array_of h s.
Proof.
  intros (_ & _ & Hb). unfold array_of. destruct (base s) as [b|]; [|done].
  by rewrite lookup_app_l.
Qed.

Lemma array_of_Some (h : heap) (s : slice) (a : loc) :
  valid h s → base s = Some a → h !! a = Some (array_of h s).
Proof.
  intros (_ & _ & Hb) Ha. unfold array_of. rewrite Ha in *.
  destruct (lookup_lt_is_Some_2 h a Hb) as [arr ->]. done.
Qed.

Lemma valid_room_base (h : heap) (s : slice) :
  valid h s → 0 < scap s → ∃ a, base s = Some a.
Proof.
  intros (_ & Hc & _) Hpos. unfold array_of in Hc.
  destruct (base s); [eauto|simpl in Hc; lia].
Qed.

Lemma elems_length (h : heap) (s : slice) :
  valid h s → length (elems h s) = slen s.
Proof.
  intros (Hl & Hc & _). unfold elems.
  rewrite length_take, length_drop. lia.
Qed.

Lemma elems_lookup (h : heap) (s : slice) (j : nat) :
  elems h s !! j = if decide (j < slen s) then array_of h s !! (off s + j) else None.
Proof. apply lookup_window. Qed.

(** Writing an array of the same size keeps every slice valid. *)
Lemma valid_insert (h : heap) (a : loc) (arr : list string) (s : slice) :
  valid h s → (∀ old, h !! a = Some old → length arr = length old) →
  valid (<[a := arr]> h) s.
Proof.
  intros (Hl & Hc & Hb) Hsame. unfold valid.
  rewrite array_of_insert, length_insert.
  split; [done|]. split; [|done].
  case_decide as Hd; [|done]. destruct Hd as [Ha Hlt].
  rewrite (Hsame (array_of h s)); [done|].
  apply array_of_Some; [by repeat split|done].
Qed.

Lemma valid_alloc (h : heap) (arr : list string) (s : slice) :
  valid h s → valid (h ++ [arr]) s.
Proof.
  intros Hv. pose proof Hv as (Hl & Hc & Hb). unfold valid.
  rewrite array_of_alloc by done. rewrite length_app.
  repeat split; try done. destruct (base s); [lia|done].
Qed.

Lemma elems_alloc (h : heap) (arr : list string) (s : slice) :
  valid h s → elems (h ++ [arr]) s = elems h s.
Proof. intros Hv. unfold elems. by rewrite array_of_alloc. Qed.

Lemma elems_insert_other (h : heap) (a : loc) (arr : list string) (s : slice) :
  base s ≠ Some a → elems (<[a := arr]> h) s = elems h s.
Proof.
  intros Hne. unfold elems. rewrite array_of_insert.
  rewrite decide_False; [done|]. by intros [? _].
Qed.

Lemma elems_insert_same (h : heap) (a : loc) (arr : list string) (s : slice) :
  base s = Some a → a < length h →
  elems (<[a := arr]> h) s = take (slen s) (drop (off s) arr).
Proof.
  intros Ha Hlt. unfold elems. rewrite array_of_insert.
  by rewrite decide_True by done.
Qed.

(** A block written inside the window of a slice shows in its elements. *)
Lemma elems_inserts (h : heap) (s : slice) (a : loc) (k : nat) (vs : list string) :
  valid h s → base s = Some a → k + length vs ≤ slen s →
  elems (<[a := list_inserts (off s + k) vs (array_of h s)]> h) s
  = list_inserts k vs (elems h s).
Proof.
  intros Hv Ha Hk. pose proof Hv as (Hl & Hc & Hb). rewrite Ha in Hb.
  rewrite elems_insert_same by done.
  apply list_eq. intros j. rewrite lookup_window.
  pose proof (elems_length h s Hv) as Hlen.
  case_decide as Hj.
  - destruct (decide (j < k)).
    + rewrite !list_lookup_inserts_lt by lia.
      rewrite elems_lookup. by case_decide.
    + destruct (decide (j < k + length vs)).
      * rewrite !list_lookup_inserts by lia. f_equal. lia.
      * rewrite !list_lookup_inserts_ge by lia.
        rewrite elems_lookup. by case_decide.
  - symmetry. apply lookup_ge_None_2. rewrite length_inserts. lia.
Qed.

Lemma elems_store (h : heap) (s : slice) (a : loc) (i : nat) (v : string) :
  valid h s → base s = Some a → i < slen s →
  elems (<[a := <[off s + i := v]> (array_of h s)]> h) s = <[i := v]> (elems h s).
Proof.
  intros Hv Ha Hi. pose proof Hv as (Hl & Hc & Hb). rewrite Ha in Hb.
  rewrite elems_insert_same by done. unfold elems.
  rewrite drop_insert_ge by lia. rewrite take_insert_lt by lia.
  f_equal. lia.
Qed.

Lemma elems_window (h : heap) (s : slice) (lo hi : nat) :
  valid h s → lo ≤ hi ≤ slen s →
  elems h (window s lo hi) = take (hi - lo) (drop lo (elems h s)).
Proof.
  intros (Hl & Hc & _) Hr. unfold elems, array_of. simpl.
  apply list_eq. intros j. rewrite !lookup_window.
  destruct (decide (j < hi - lo)); [|done].
  rewrite decide_True by lia. f_equal. lia.
Qed.

Lemma valid_window (h : heap) (s : slice) (lo hi : nat) :
  valid h s → lo ≤ hi ≤ scap s →
  valid h (window s lo hi).
Proof.
  intros (Hl & Hc & Hb) Hr. unfold valid, array_of in *. simpl.
  repeat split; [lia|lia|done].
Qed.

Lemma array_of_fresh (h : heap) (arr : list string) (o n c : nat) :
  array_of (h ++ [arr]) (Slice (Some (length h)) o n c) = arr.
Proof.
  unfold array_of. simpl. rewrite lookup_app_r by done.
  by rewrite Nat.sub_diag.
Qed.

(** ** How the primitives run *)

Section Runs.

Context {E : Type}.
Variable growcap : nat → nat → nat.
Implicit Types (w : @world E) (s dst src : slice) (v : string).

Lemma load_run s (i : nat) v w :
  elems (mem w) s !! i = Some v → load s (Z.of_nat i) w = Some (v, w).
Proof.
  intros Hv. unfold load.
  assert (i < slen s).
  { apply lookup_lt_Some in Hv. unfold elems in Hv.
    rewrite length_take in Hv. lia. }
  rewrite decide_True by (unfold len; lia).
  by rewrite Nat2Z.id, Hv.
Qed.

Lemma reslice_run s (lo hi : nat) w :
  lo ≤ hi ≤ scap s →
  reslice s (Z.of_nat lo) (Z.of_nat hi) w = Some (window s lo hi, w).
Proof.
  intros Hr. unfold reslice. rewrite decide_True by (unfold cap; lia).
  by rewrite !Nat2Z.id.
Qed.

Lemma store_run s (a : loc) (i : nat) v w :
  valid (mem w) s → base s = Some a → i < slen s →
  store s (Z.of_nat i) v w
  = Some (tt, set_array w a (<[off s + i := v]> (array_of (mem w) s))).
Proof.
  intros Hv Ha Hi. unfold store.
  rewrite decide_True by (unfold len; lia).
  rewrite Ha, (array_of_Some _ _ _ Hv Ha). by rewrite Nat2Z.id.
Qed.

Lemma copy_run dst src (a : loc) w :
  valid (mem w) dst → base dst = Some a →
  copy dst src w
  = Some (Z.of_nat (Nat.min (slen dst) (slen src)),
          set_array w a
            (list_inserts (off dst)
               (take (Nat.min (slen dst) (slen src)) (elems (mem w) src))
               (array_of (mem w) dst))).
Proof.
  intros Hv Ha. unfold copy. by rewrite Ha, (array_of_Some _ _ _ Hv Ha).
Qed.

(** What [append] guarantees: the new slice shows the old elements and
    then [v]; every other valid slice keeps its elements unless it
    shares the array that was extended in place. *)
Lemma append_spec s v w :
  valid (mem w) s →
  ∃ s1 w1 a1,
    append growcap s v w = Some (s1, w1) ∧
    base s1 = Some a1 ∧ slen s1 = S (slen s) ∧
    valid (mem w1) s1 ∧
    elems (mem w1) s1 = elems (mem w) s ++ [v] ∧
    env w1 = env w ∧
    (slen s < scap s → s1 = Slice (base s) (off s) (S (slen s)) (scap s)) ∧
    (∀ s', valid (mem w) s' → valid (mem w1) s') ∧
    (∀ s', valid (mem w) s' → base s' ≠ base s ∨ ¬ slen s < scap s →
           elems (mem w1) s' = elems (mem w) s').
Proof.
  intros Hv. pose proof Hv as (Hl & Hc & Hb).
  pose proof (elems_length _ _ Hv) as Hlen.
  unfold append. destruct (decide (slen s < scap s)) as [Hroom|Hfull].
  - destruct (valid_room_base _ _ Hv) as [a Ha]; [lia|].
    rewrite Ha, (array_of_Some _ _ _ Hv Ha). rewrite Ha in Hb.
    eexists _, _, a. split; [done|]. simpl.
    assert (Hsame : ∀ old, mem w !! a = Some old →
              length (<[off s + slen s := v]> (array_of (mem w) s)) = length old).
    { intros old Hold. rewrite (array_of_Some _ _ _ Hv Ha) in Hold.
      simplify_eq. apply length_insert. }
    split_and!; try done.
    + apply (valid_insert _ a _ (Slice (Some a) (off s) (S (slen s)) (scap s)));
        [|done].
      unfold valid, array_of in *. simpl. rewrite Ha in Hc. split_and!; [lia|done|done].
    + rewrite elems_insert_same by done. simpl.
      apply list_eq. intros j. rewrite lookup_window.
      destruct (decide (j < slen s)) as [Hj|Hj].
      * rewrite decide_True by lia.
        rewrite list_lookup_insert_ne by lia.
        rewrite lookup_app_l by lia.
        rewrite elems_lookup. by rewrite decide_True.
      * rewrite lookup_app_r by lia. rewrite Hlen.
        destruct (decide (j = slen s)) as [->|].
        -- rewrite decide_True by lia.
           rewrite list_lookup_insert_eq by lia. by rewrite Nat.sub_diag.
        -- rewrite decide_False by lia.
           symmetry. apply lookup_ge_None_2. simpl. lia.
    + intros s' Hs'. by apply valid_insert.
    + intros s' Hs' [Hne|Hne]; [|done].
      by apply elems_insert_other.
  - eexists _, _, (length (mem w)). split; [done|]. simpl.
    split_and!; try done.
    + unfold valid. rewrite array_of_fresh. simpl.
      rewrite !length_app, Hlen. simpl. rewrite length_replicate.
      split_and!; lia.
    + unfold elems at 1. rewrite array_of_fresh. simpl drop. simpl slen.
      rewrite (cons_middle v), (assoc_L (++)).
      apply take_app_length'. rewrite length_app, Hlen. simpl. lia.
    + intros s' Hs'. by apply valid_alloc.
    + intros s' Hs' _. by apply elems_alloc.
Qed.

Lemma store_spec s (i : nat) v w :
  valid (mem w) s → i < slen s →
  ∃ w',
    store s (Z.of_nat i) v w = Some (tt, w') ∧
    env w' = env w ∧
    (∀ s', valid (mem w) s' → valid (mem w') s') ∧
    elems (mem w') s = <[i := v]> (elems (mem w) s) ∧
    (∀ s', base s' ≠ base s → elems (mem w') s' = elems (mem w) s').
Proof.
  intros Hv Hi. destruct (valid_room_base _ _ Hv) as [a Ha].
  { destruct Hv as (? & _). lia. }
  eexists. split; [by apply store_run|]. simpl. split_and!; [done| | |].
  - intros s' Hs'. apply valid_insert; [done|].
    intros old Hold. rewrite (array_of_Some _ _ _ Hv Ha) in Hold.
    simplify_eq. apply length_insert.
  - by apply elems_store.
  - intros s' Hne. apply elems_insert_other. by rewrite <- Ha.
Qed.

(** [copy(s[d:], s[c:])]: a block of [s] moved inside [s]. *)
Lemma copy_within s (d c : nat) w :
  valid (mem w) s → d ≤ slen s → c ≤ slen s →
  ∃ n w',
    copy (window s d (slen s)) (window s c (slen s)) w = Some (n, w') ∧
    env w' = env w ∧
    (∀ s', valid (mem w) s' → valid (mem w') s') ∧
    elems (mem w') s
    = list_inserts d
        (take (Nat.min (slen s - d) (slen s - c)) (drop c (elems (mem w) s)))
        (elems (mem w) s).
Proof.
  intros Hv Hd Hc. pose proof Hv as (Hl & Hcap & Hb).
  pose proof (elems_length _ _ Hv) as Hlen.
  assert (Hsrc : elems (mem w) (window s c (slen s)) = drop c (elems (mem w) s)).
  { rewrite elems_window by (done || lia).
    apply take_ge. rewrite length_drop. lia. }
  destruct (base s) as [a|] eqn:Ha.
  - pose proof (valid_window _ _ d (slen s) Hv) as Hvd.
    eexists _, _. split.
    { apply (copy_run _ _ a); [apply Hvd; lia|]. simpl. done. }
    simpl. rewrite Hsrc.
    replace (array_of (mem w) (window s d (slen s))) with (array_of (mem w) s)
      by (unfold array_of; simpl; done).
    split_and!; [done| |].
    + intros s' Hs'. apply valid_insert; [done|].
      intros old Hold. rewrite (array_of_Some _ _ _ Hv Ha) in Hold.
      simplify_eq. apply length_inserts.
    + apply elems_inserts; [done|done|].
      rewrite length_take, length_drop. lia.
  - assert (slen s = 0) as Hz.
    { unfold array_of in Hcap. rewrite Ha in Hcap. simpl in Hcap. lia. }
    eexists _, w. split.
    { unfold copy. simpl. rewrite Ha. done. }
    split_and!; [done|done|].
    rewrite Hz. simpl. by destruct (drop c (elems (mem w) s)).
Qed.

End Runs.

(** ** Searching *)

Lemma first_index_Some (str : string) (l : list string) (i : nat) :
  first_index str l = Some i ↔
  l !! i = Some str ∧ ∀ j, j < i → l !! j ≠ Some str.
Proof.
  revert i. induction l as [|v l IH]; intros i; simpl.
  - split; [done|]. intros [? _]. done.
  - destruct (String.eqb_spec str v) as [->|Hne].
    + split.
      * intros [= <-]. split; [done|]. intros j Hj. lia.
      * intros [Hi Hfirst]. destruct i as [|i]; [done|].
        exfalso. apply (Hfirst 0); [lia|done].
    + rewrite fmap_Some. split.
      * intros (k & Hk & ->). apply IH in Hk as [Hk Hfirst]. split; [done|].
        intros [|j] Hj; simpl; [congruence|]. apply Hfirst. lia.
      * intros [Hi Hfirst]. destruct i as [|i]; simpl in Hi; [congruence|].
        exists i. split; [|done]. apply IH. split; [done|].
        intros j Hj. apply (Hfirst (S j)). lia.
Qed.

Lemma first_index_None (str : string) (l : list string) :
  first_index str l = None ↔ str ∉ l.
Proof.
  induction l as [|v l IH]; simpl.
  - split; [|done]. intros _. apply not_elem_of_nil.
  - rewrite not_elem_of_cons. destruct (String.eqb_spec str v) as [->|Hne].
    + split; [done|]. intros [? _]. done.
    + destruct (first_index str l); simpl.
      * split; [done|]. intros [_ Hl]. by apply IH in Hl.
      * split; [|done]. intros _. split; [done|]. by apply IH.
Qed.

Lemma first_hit_index (str : string) (i : nat) (l : list string) :
  first_hit (λ k v, if String.eqb str v then Some (Z.of_nat k) else None) i l
  = (λ j, Z.of_nat (i + j)) <$> first_index str l.
Proof.
  revert i. induction l as [|v l IH]; intros i; simpl; [done|].
  destruct (String.eqb str v); simpl.
  - do 2 f_equal. lia.
  - rewrite IH. destruct (first_index str l); simpl; [|done].
    do 2 f_equal. lia.
Qed.

Lemma first_hit_contains (str : string) (i : nat) (l : list string) :
  first_hit (λ _ v, if String.eqb str v then Some true else None) i l
  = (λ _, true) <$> first_index str l.
Proof.
  revert i. induction l as [|v l IH]; intros i; simpl; [done|].
  destruct (String.eqb str v); simpl; [done|].
  rewrite IH. by destruct (first_index str l).
Qed.

Section Loops.

Context {E : Type}.
Implicit Types (w : @world E) (s : slice).

Lemma for_loop_S {A R} (todo : nat) (i : Z) (body : Z → A → M (E := E) (A + R))
    (a : A) w :
  for_loop (S todo) i body a w
  = match body i a w with
    | Some (inl a', w') => for_loop todo (i + 1)%Z body a' w'
    | Some (inr x, w') => Some (inr x, w')
    | None => None
    end.
Proof.
  simpl. unfold bind. destruct (body i a w) as [[[a'|x] w']|]; done.
Qed.

(** A loop whose body only reads: it stops at the first index where
    the body returns. *)
Lemma for_loop_first_hit {R} (body : Z → unit → M (unit + R))
    (d : nat → string → option R) (L : list string) w :
  (∀ k v, L !! k = Some v →
     body (Z.of_nat k) tt w = Some (from_option inr (inl tt) (d k v), w)) →
  ∀ rest pre, L = pre ++ rest →
    for_loop (length rest) (Z.of_nat (length pre)) body tt w
    = Some (from_option inr (inl tt) (first_hit d (length pre) rest), w).
Proof.
  intros Hbody. induction rest as [|v rest IH]; intros pre HL; simpl; [done|].
  unfold bind. rewrite (Hbody (length pre) v).
  2:{ rewrite HL. by rewrite list_lookup_middle. }
  destruct (d (length pre) v) as [r|]; simpl; [done|].
  specialize (IH (pre ++ [v])). rewrite length_app in IH. simpl in IH.
  rewrite Nat2Z.inj_add in IH. simpl in IH.
  rewrite Nat.add_1_r in IH. apply IH.
  by rewrite <- (assoc_L (++)).
Qed.

Lemma for_range_first_hit {R} (body : Z → unit → M (unit + R))
    (d : nat → string → option R) s w :
  valid (mem w) s →
  (∀ k v, elems (mem w) s !! k = Some v →
     body (Z.of_nat k) tt w = Some (from_option inr (inl tt) (d k v), w)) →
  for_range s body tt w
  = Some (from_option inr (inl tt) (first_hit d 0 (elems (mem w) s)), w).
Proof.
  intros Hv Hbody. unfold for_range.
  rewrite <- (elems_length _ _ Hv).
  by apply (for_loop_first_hit body d (elems (mem w) s) w Hbody _ []).
Qed.

Lemma IndexOf_run (list : StringList) (str : string) w :
  valid (mem w) (Items list) →
  IndexOf list str w
  = Some (from_option Z.of_nat (-1)%Z
            (first_index str (elems (mem w) (Items list))), w).
Proof.
  intros Hv. unfold IndexOf, bind.
  rewrite (for_range_first_hit _
    (λ k v, if String.eqb str v then Some (Z.of_nat k) else None)); [|done|].
  - rewrite first_hit_index.
    by destruct (first_index str (elems (mem w) (Items list))).
  - intros k v Hk. unfold bind. rewrite (load_run _ _ _ _ Hk).
    by destruct (String.eqb str v).
Qed.

Lemma Contains_run (list : StringList) (str : string) w :
  valid (mem w) (Items list) →
  Contains list str w
  = Some (bool_decide (is_Some (first_index str (elems (mem w) (Items list)))), w).
Proof.
  intros Hv. unfold Contains, bind.
  rewrite (for_range_first_hit _
    (λ _ v, if String.eqb str v then Some true else None)); [|done|].
  - rewrite first_hit_contains.
    by destruct (first_index str (elems (mem w) (Items list))).
  - intros k v Hk. unfold bind. rewrite (load_run _ _ _ _ Hk).
    by destruct (String.eqb str v).
Qed.

End Loops.

(** ** Insertion and removal on plain lists, position by position *)

Lemma lookup_inserted (L : list string) (v : string) (i j : nat) :
  i ≤ length L →
  (take i L ++ v :: drop i L) !! j =
  if decide (j < i) then L !! j
  else if decide (j = i) then Some v else L !! (j - 1).
Proof.
  intros Hi. assert (length (take i L) = i) as Hlen by (rewrite length_take; lia).
  destruct (decide (j < i)).
  - rewrite lookup_app_l by lia. by rewrite lookup_take_lt.
  - rewrite lookup_app_r by lia. rewrite Hlen.
    destruct (decide (j = i)) as [->|]; [by rewrite Nat.sub_diag|].
    destruct (j - i) as [|k] eqn:Hk; [lia|]. simpl.
    rewrite lookup_drop. f_equal. lia.
Qed.

Lemma lookup_removed (L : list string) (i j : nat) :
  i < length L →
  (take i L ++ drop (S i) L) !! j = if decide (j < i) then L !! j else L !! S j.
Proof.
  intros Hi. assert (length (take i L) = i) as Hlen by (rewrite length_take; lia).
  destruct (decide (j < i)).
  - rewrite lookup_app_l by lia. by rewrite lookup_take_lt.
  - rewrite lookup_app_r by lia. rewrite Hlen, lookup_drop. f_equal. lia.
Qed.

(** ** The methods *)

Section Methods.

Context {E : Type}.
Variable growcap : nat → nat → nat.
Implicit Types (w : @world E) (list : StringList) (str v : string).

(** C3.  An index below 0 or above the length makes [Insert] return the
    error "index out of range"; the receiver and the whole store are
    left as they were: nothing is written, nothing is clamped. *)
Theorem Insert_out_of_range list v (index : Z) w :
  (index < 0 ∨ index > len (Items list))%Z →
  Insert growcap list v index w = Some ((list, Some "index out of range"), w).
Proof.
  intros Hout. unfold Insert.
  replace ((index <? 0)%Z || (index >? len (Items list))%Z) with true; [done|].
  symmetry. apply orb_true_iff. rewrite Z.ltb_lt, Z.gtb_gt. lia.
Qed.

(** C4.  With 0 <= index <= length, [Insert] returns no error and the
    receiver then shows the old elements with [v] put in at [index]:
    [v] is at position [index], the elements before it stay where they
    were, each element from [index] on is one position later, and
    [index] equal to the length appends. *)
Theorem Insert_in_range list v (index : Z) w :
  valid (mem w) (Items list) →
  (0 ≤ index ≤ len (Items list))%Z →
  ∃ list' w',
    Insert growcap list v index w = Some ((list', None), w') ∧
    valid (mem w') (Items list') ∧
    env w' = env w ∧
    elems (mem w') (Items list')
    = take (Z.to_nat index) (elems (mem w) (Items list))
      ++ v :: drop (Z.to_nat index) (elems (mem w) (Items list)) ∧
    elems (mem w') (Items list') !! Z.to_nat index = Some v ∧
    (∀ j, j < Z.to_nat index →
       elems (mem w') (Items list') !! j = elems (mem w) (Items list) !! j) ∧
    (∀ j, Z.to_nat index ≤ j →
       elems (mem w') (Items list') !! S j = elems (mem w) (Items list) !! j) ∧
    (index = len (Items list) →
       elems (mem w') (Items list') = elems (mem w) (Items list) ++ [v]).
Proof.
  intros Hv Hi. unfold len in Hi.
  pose proof (elems_length _ _ Hv) as HL.
  set (L := elems (mem w) (Items list)) in *.
  assert (∃ k : nat, index = Z.of_nat k) as [k ->]
    by (exists (Z.to_nat index); lia).
  rewrite Nat2Z.id.
  assert (k ≤ length L) as Hk by lia.
  unfold Insert.
  replace ((Z.of_nat k <? 0)%Z || (Z.of_nat k >? len (Items list))%Z) with false.
  2:{ symmetry. apply orb_false_iff. rewrite Z.ltb_ge, Z.gtb_ltb, Z.ltb_ge.
      unfold len. lia. }
  unfold bind.
  destruct (append_spec growcap _ v w Hv)
    as (s1 & w1 & a1 & -> & Hb1 & Hl1 & Hv1 & He1 & Henv1 & _).
  replace (Z.of_nat k + 1)%Z with (Z.of_nat (S k)) by lia.
  unfold len at 1 2.
  pose proof Hv1 as (Hlc1 & _).
  rewrite !reslice_run by lia.
  destruct (copy_within s1 (S k) k w1 Hv1) as (n & w2 & -> & Henv2 & Hv2 & He2);
    [lia|lia|].
  destruct (store_spec s1 k v w2 (Hv2 _ Hv1)) as (w3 & -> & Henv3 & Hv3 & He3 & _);
    [lia|].
  assert (Hfinal : elems (mem w3) s1 = take k L ++ v :: drop k L).
  { rewrite He3, He2, He1, Hl1. fold L. rewrite <- HL.
    replace (S (length L) - S k) with (length L - k) by lia.
    by apply shift_right_insert. }
  eexists _, w3. split; [done|]. simpl. rewrite Hfinal.
  split_and!.
  - by apply Hv3, Hv2.
  - congruence.
  - done.
  - rewrite lookup_inserted by done. rewrite decide_False, decide_True by lia. done.
  - intros j Hj. rewrite lookup_inserted by done. by rewrite decide_True.
  - intros j Hj. rewrite lookup_inserted by done.
    rewrite !decide_False by lia. f_equal. lia.
  - intros Hend. assert (k = length L) as -> by (unfold len in Hend; lia).
    by rewrite firstn_all, drop_all.
Qed.

(** C5.  [Remove] of a value that is absent changes nothing, and of a
    value that is present deletes its first occurrence: the elements
    before it stay, each element after it is one position earlier, and
    the list is one shorter. *)
Theorem Remove_first_occurrence list str w :
  valid (mem w) (Items list) →
  (str ∉ elems (mem w) (Items list) → Remove list str w = Some (list, w)) ∧
  (∀ i, elems (mem w) (Items list) !! i = Some str →
        (∀ j, j < i → elems (mem w) (Items list) !! j ≠ Some str) →
     ∃ list' w',
       Remove list str w = Some (list', w') ∧
       valid (mem w') (Items list') ∧
       env w' = env w ∧
       elems (mem w') (Items list')
       = take i (elems (mem w) (Items list))
         ++ drop (S i) (elems (mem w) (Items list)) ∧
       (∀ j, j < i →
          elems (mem w') (Items list') !! j = elems (mem w) (Items list) !! j) ∧
       (∀ j, i ≤ j →
          elems (mem w') (Items list') !! j = elems (mem w) (Items list) !! S j) ∧
       S (length (elems (mem w') (Items list')))
       = length (elems (mem w) (Items list))).
Proof.
  intros Hv. pose proof (elems_length _ _ Hv) as HL.
  set (L := elems (mem w) (Items list)) in *.
  unfold Remove, bind. rewrite IndexOf_run by done. fold L. split.
  - intros Habsent. apply first_index_None in Habsent. by rewrite Habsent.
  - intros i Hi Hfirst.
    assert (first_index str L = Some i) as -> by (by apply first_index_Some).
    simpl. assert (i < length L) as Hlt by (by apply lookup_lt_Some in Hi).
    replace (Z.of_nat i <? 0)%Z with false by (symmetry; apply Z.ltb_ge; lia).
    replace (Z.of_nat i + 1)%Z with (Z.of_nat (S i)) by lia.
    replace (len (Items list) - 1)%Z with (Z.of_nat (slen (Items list) - 1))
      by (unfold len; lia).
    unfold len. pose proof Hv as (Hlc & _).
    rewrite !reslice_run by lia.
    destruct (copy_within (Items list) i (S i) w Hv)
      as (n & w1 & -> & Henv1 & Hv1 & He1); [lia|lia|].
    change (Z.of_nat 0) with 0%Z. 
    rewrite (reslice_run _ 0 (slen (Items list) - 1)) by lia.
    assert (Hfinal : elems (mem w1) (window (Items list) 0 (slen (Items list) - 1))
                     = take i L ++ drop (S i) L).
    { rewrite elems_window by (by apply Hv1 || lia).
      rewrite Nat.sub_0_r, drop_0, He1. fold L. rewrite <- HL.
      by apply shift_left_remove. }
    eexists _, w1. split; [done|]. simpl. rewrite Hfinal. split_and!.
    + apply valid_window; [by apply Hv1|lia].
    + done.
    + done.
    + intros j Hj. rewrite lookup_removed by done. by rewrite decide_True.
    + intros j Hj. rewrite lookup_removed by done. by rewrite decide_False by lia.
    + rewrite length_app, length_take, length_drop. lia.
Qed.

(** C6.  [RemoveUnordered] of a value that is absent changes nothing,
    and of a value that is present puts the last element in the slot of
    its first occurrence and drops the last position: the list is one
    shorter. *)
Theorem RemoveUnordered_first_occurrence list str w :
  valid (mem w) (Items list) →
  (str ∉ elems (mem w) (Items list) →
     RemoveUnordered list str w = Some (list, w)) ∧
  (∀ i, elems (mem w) (Items list) !! i = Some str →
        (∀ j, j < i → elems (mem w) (Items list) !! j ≠ Some str) →
     ∃ last list' w',
       elems (mem w) (Items list) !! (length (elems (mem w) (Items list)) - 1)
       = Some last ∧
       RemoveUnordered list str w = Some (list', w') ∧
       valid (mem w') (Items list') ∧
       env w' = env w ∧
       elems (mem w') (Items list')
       = take (length (elems (mem w) (Items list)) - 1)
              (<[i := last]> (elems (mem w) (Items list))) ∧
       S (length (elems (mem w') (Items list')))
       = length (elems (mem w) (Items list))).
Proof.
  intros Hv. pose proof (elems_length _ _ Hv) as HL.
  set (L := elems (mem w) (Items list)) in *.
  unfold RemoveUnordered, bind. rewrite IndexOf_run by done. fold L. split.
  - intros Habsent. apply first_index_None in Habsent. by rewrite Habsent.
  - intros i Hi Hfirst.
    assert (first_index str L = Some i) as -> by (by apply first_index_Some).
    simpl. assert (i < length L) as Hlt by (by apply lookup_lt_Some in Hi).
    replace (Z.of_nat i <? 0)%Z with false by (symmetry; apply Z.ltb_ge; lia).
    destruct (lookup_lt_is_Some_2 L (length L - 1)) as [last Hlast]; [lia|].
    replace (len (Items list) - 1)%Z with (Z.of_nat (length L - 1))
      by (unfold len; lia).
    rewrite (load_run _ _ last) by done.
    destruct (store_spec (Items list) i last w Hv)
      as (w1 & -> & Henv1 & Hv1 & He1 & _); [lia|].
    pose proof Hv as (Hlc & _).
    change 0%Z with (Z.of_nat 0).
    rewrite reslice_run by lia.
    assert (Hfinal : elems (mem w1) (window (Items list) 0 (length L - 1))
                     = take (length L - 1) (<[i := last]> L)).
    { rewrite elems_window by (by apply Hv1 || lia).
      by rewrite Nat.sub_0_r, drop_0, He1. }
    eexists last, _, w1. split; [done|]. split; [done|]. simpl.
    rewrite Hfinal. split_and!; [|done|done|].
    + apply valid_window; [by apply Hv1|lia].
    + rewrite length_take, length_insert. lia.
Qed.

(** C10.  [Contains] and [IndexOf] agree: [Contains] answers true
    exactly when [IndexOf] answers an index that is not negative, and
    false exactly when [IndexOf] answers -1. *)
Theorem Contains_iff_IndexOf list str w :
  valid (mem w) (Items list) →
  ∃ (b : bool) (i : Z),
    Contains list str w = Some (b, w) ∧
    IndexOf list str w = Some (i, w) ∧
    (b = true ↔ (0 ≤ i)%Z) ∧
    (b = false ↔ i = (-1)%Z).
Proof.
  intros Hv. eexists _, _.
  split; [by apply Contains_run|]. split; [by apply IndexOf_run|].
  destruct (first_index str (elems (mem w) (Items list))) as [k|]; simpl.
  - split; split; (done || lia).
  - split; split; (done || lia).
Qed.

(** [Copy] copies into the zero value, whose [Items] is nil: a nil
    destination takes no element, so the result is always the empty
    list and the store is not touched. *)
Lemma Copy_run list w : Copy list w = Some (zero_StringList, w).
Proof. reflexivity. Qed.

Lemma make_run (n c : nat) w :
  n ≤ c →
  make (Z.of_nat n) (Z.of_nat c) w
  = Some (Slice (Some (length (mem w))) 0 n c,
          World (mem w ++ [replicate c zero_string]) (env w)).
Proof.
  intros Hn. unfold make. rewrite decide_True by lia.
  simpl. by rewrite !Nat2Z.id.
Qed.

(** [append] into an array that has room and sits last in the store. *)
Lemma append_in_place (h : heap) (arr : list string) (e : E) (m c : nat) v :
  m < c →
  append growcap (Slice (Some (length h)) 0 m c) v (World (h ++ [arr]) e)
  = Some (Slice (Some (length h)) 0 (S m) c, World (h ++ [<[m := v]> arr]) e).
Proof.
  intros Hm. unfold append. simpl. rewrite decide_True by done.
  rewrite lookup_app_r, Nat.sub_diag by done. simpl.
  unfold set_array. simpl.
  rewrite insert_app_r_alt, Nat.sub_diag by done. done.
Qed.

Lemma ToString_empty_run list w :
  slen (Items list) = 0 →
  ToString list w = Some ("]", World (mem w ++ [["]"]]) (env w)).
Proof.
  intros Hz. unfold ToString, len, for_range. rewrite Hz.
  change (Z.of_nat 0 * 2 + 1)%Z with (Z.of_nat 1).
  unfold bind. rewrite make_run by done. simpl.
  unfold store, len, set_array, elems, array_of. simpl.
  repeat (rewrite ?lookup_app_r, ?insert_app_r_alt, ?Nat.sub_diag by done; simpl).
  done.
Qed.

(** C2, the empty list.  [ToString] of an empty list, be it the zero
    value or the list [New] makes, is the one character "]": the
    opening bracket is stored in the only slot of [parts] and then
    overwritten by the closing one. *)
Theorem ToString_empty_is_closing_bracket w :
  (∃ w', ToString zero_StringList w = Some ("]", w')) ∧
  (∃ w', (let* list := New in ToString list) w = Some ("]", w')).
Proof.
  split.
  - eexists. by apply ToString_empty_run.
  - unfold bind, New, bind, ret. change 0%Z with (Z.of_nat 0).
    rewrite make_run by done. eexists. by apply ToString_empty_run.
Qed.

(** ** Rendering *)

Lemma append_nil_r (s : string) : s +:+ EmptyString = s.
Proof.
  induction s as [|c s IH]; [done|].
  change (String c s +:+ EmptyString) with (String c (s +:+ EmptyString)).
  by rewrite IH.
Qed.

Lemma append_assoc (s1 s2 s3 : string) : (s1 +:+ s2) +:+ s3 = s1 +:+ s2 +:+ s3.
Proof.
  induction s1 as [|c s1 IH]; [done|].
  change (String c ((s1 +:+ s2) +:+ s3) = String c (s1 +:+ s2 +:+ s3)).
  by rewrite IH.
Qed.

Lemma strings_Join_cons (p : string) (ps : list string) (sep : string) :
  ps ≠ [] → strings_Join (p :: ps) sep = p +:+ sep +:+ strings_Join ps sep.
Proof. by destruct ps. Qed.

Lemma strings_Join_flat (ps : list string) :
  strings_Join ps EmptyString = flat ps.
Proof.
  induction ps as [|p ps IH]; [done|].
  destruct ps as [|p' ps]; [by cbn; rewrite append_nil_r|].
  rewrite strings_Join_cons by done. rewrite IH. done.
Qed.

Lemma flat_app (a b : list string) : flat (a ++ b) = flat a +:+ flat b.
Proof.
  induction a as [|p a IH]; [done|]. unfold flat in *. simpl.
  by rewrite IH, append_assoc.
Qed.

Lemma strings_Join_snoc (L : list string) (x : string) :
  strings_Join (quoted <$> (L ++ [x])) ","
  = flat (concat (item_parts <$> L)) +:+ quoted x.
Proof.
  induction L as [|v L IH]; [done|].
  rewrite <- app_comm_cons, fmap_cons.
  rewrite strings_Join_cons by (rewrite fmap_app; by destruct (quoted <$> L)).
  rewrite IH. rewrite fmap_cons. simpl concat.
  unfold flat. simpl. by rewrite !append_assoc.
Qed.

Lemma fill_cons (i : nat) (v : string) (rest parts : list string) :
  fill i (v :: rest) parts
  = fill (S i) rest (<[2 * i + 2 := ","]> (<[2 * i + 1 := quoted v]> parts)).
Proof. reflexivity. Qed.

Lemma fill_spec (rest P : list string) (i : nat) :
  length P = 2 * i + 1 →
  fill i rest (P ++ replicate (2 * length rest) zero_string)
  = P ++ concat (item_parts <$> rest).
Proof.
  revert P i. induction rest as [|v rest IH]; intros P i HP; [done|].
  replace (2 * length (v :: rest)) with (S (S (2 * length rest))) by (simpl; lia).
  rewrite fill_cons.
  replace (2 * i + 1) with (length P + 0) by lia.
  replace (2 * i + 2) with (length P + 1) by lia.
  rewrite !insert_app_r.
  assert (<[1 := ","]> (<[0 := quoted v]>
            (replicate (S (S (2 * length rest))) zero_string))
          = [quoted v; ","] ++ replicate (2 * length rest) zero_string) as ->
    by reflexivity.
  rewrite (assoc_L (++)), (IH _ (S i)) by (rewrite length_app; simpl; lia).
  by rewrite <- (assoc_L (++)).
Qed.

Lemma length_concat_item (L : list string) :
  length (concat (item_parts <$> L)) = 2 * length L.
Proof.
  induction L as [|v L IH]; [done|].
  rewrite fmap_cons. change (concat (item_parts v :: (item_parts <$> L)))
    with (item_parts v ++ concat (item_parts <$> L)).
  rewrite length_app, IH. simpl. lia.
Qed.

(** What [parts] holds at the end, put end to end. *)
Lemma parts_rendering (L : list string) :
  L ≠ [] →
  flat (<[2 * length L := "]"]> ("[" :: concat (item_parts <$> L)))
  = rendering L.
Proof.
  intros HL. destruct (exists_last HL) as (L' & x & ->).
  unfold rendering. rewrite strings_Join_snoc.
  rewrite fmap_app, concat_app.
  change (concat (item_parts <$> [x])) with [quoted x; ","].
  change ("[" :: concat (item_parts <$> L') ++ [quoted x; ","])
    with (("[" :: concat (item_parts <$> L')) ++ [quoted x; ","]).
  replace (2 * length (L' ++ [x]))
    with (length ("[" :: concat (item_parts <$> L')) + 1).
  2:{ rewrite length_app. simpl. rewrite length_concat_item. lia. }
  rewrite insert_app_r.
  change (<[1 := "]"]> [quoted x; ","]) with [quoted x; "]"].
  change ("[" :: concat (item_parts <$> L')) with (["["] ++ concat (item_parts <$> L')).
  rewrite !flat_app.
  change (flat ["["]) with "[". change (flat [quoted x; "]"]) with (quoted x +:+ "]").
  by rewrite !append_assoc.
Qed.

(** [s[i] = v] in the array that sits last in the store. *)
Lemma store_last (h : heap) (arr : list string) (e : E) (n c i : nat) v :
  i < n →
  store (Slice (Some (length h)) 0 n c) (Z.of_nat i) v (World (h ++ [arr]) e)
  = Some (tt, World (h ++ [<[i := v]> arr]) e).
Proof.
  intros Hi. unfold store, len. simpl. rewrite decide_True by lia.
  rewrite lookup_app_r, Nat.sub_diag by done. simpl.
  unfold set_array. simpl. rewrite Nat2Z.id.
  rewrite insert_app_r_alt, Nat.sub_diag by done. done.
Qed.

Lemma ToString_loop (h : heap) (e : E) list (c : nat) :
  valid h (Items list) →
  c = 2 * length (elems h (Items list)) + 1 →
  ∀ rest pre arr, elems h (Items list) = pre ++ rest →
    for_loop (R := Empty_set) (length rest) (Z.of_nat (length pre))
      (λ i partsIndex,
         let* v := load (Items list) i in
         let* _ := store (Slice (Some (length h)) 0 c c) partsIndex
                     (dquote +:+ v +:+ dquote) in
         let* _ := store (Slice (Some (length h)) 0 c c) (partsIndex + 1) "," in
         ret (inl (partsIndex + 2)%Z))
      (Z.of_nat (2 * length pre + 1)) (World (h ++ [arr]) e)
    = Some (inl (Z.of_nat (2 * length (pre ++ rest) + 1)),
            World (h ++ [fill (length pre) rest arr]) e).
Proof.
  intros Hv Hc. induction rest as [|v rest IH]; intros pre arr HL.
  - simpl. by rewrite app_nil_r.
  - assert (length (elems h (Items list)) = length pre + S (length rest)) as Hlen
      by (rewrite HL, length_app; done).
    change (length (v :: rest)) with (S (length rest)).
    rewrite for_loop_S.
    unfold bind at 1. rewrite (load_run _ _ v).
    2:{ simpl. rewrite elems_alloc by done. rewrite HL. apply list_lookup_middle. done. }
    unfold bind at 1. rewrite store_last by lia.
    unfold bind at 1.
    replace (Z.of_nat (2 * length pre + 1) + 1)%Z
      with (Z.of_nat (2 * length pre + 2)) by lia.
    rewrite store_last by lia. unfold ret at 1.
    replace (Z.of_nat (2 * length pre + 1) + 2)%Z
      with (Z.of_nat (2 * length (pre ++ [v]) + 1))
      by (rewrite length_app; simpl; lia).
    replace (Z.of_nat (length pre) + 1)%Z with (Z.of_nat (length (pre ++ [v])))
      by (rewrite length_app; simpl; lia).
    rewrite IH by (by rewrite <- (assoc_L (++))).
    rewrite <- (assoc_L (++)), fill_cons, (length_app pre [v]).
    change (length [v]) with 1.
    by replace (length pre + 1) with (S (length pre)) by lia.
Qed.

(** C2, the other lists.  For a list with at least one item [ToString]
    gives the bracketed, comma-separated, quoted listing of the items
    in order; the only array it writes is one of its own, so the list
    (and every other slice) is as before. *)
Lemma ToString_nonempty list w :
  valid (mem w) (Items list) →
  elems (mem w) (Items list) ≠ [] →
  ∃ w',
    ToString list w = Some (rendering (elems (mem w) (Items list)), w') ∧
    env w' = env w ∧
    (∀ s', valid (mem w) s' →
       valid (mem w') s' ∧ elems (mem w') s' = elems (mem w) s').
Proof.
  intros Hv Hne. destruct w as [h e]. simpl in *.
  pose proof (elems_length _ _ Hv) as HL.
  set (L := elems h (Items list)) in *.
  unfold ToString, for_range, len. rewrite <- HL.
  replace (Z.of_nat (length L) * 2 + 1)%Z with (Z.of_nat (2 * length L + 1)) by lia.
  unfold bind at 1. rewrite make_run by done. cbn [mem env slen].
  replace (Z.of_nat (2 * length L + 1) - 1)%Z with (Z.of_nat (2 * length L)) by lia.
  unfold bind at 1. change 0%Z with (Z.of_nat 0) at 1. rewrite store_last by lia.
  pose proof (ToString_loop h e list (2 * length L + 1) Hv eq_refl L []
                (<[0 := "["]> (replicate (2 * length L + 1) zero_string)) eq_refl)
    as Hloop.
  change (length (@nil string)) with 0 in Hloop.
  change (Z.of_nat (2 * 0 + 1)) with 1%Z in Hloop.
  change (Z.of_nat 0) with 0%Z in Hloop.
  change ([] ++ L) with L in Hloop.
  unfold bind at 1. rewrite Hloop.
  unfold bind at 1. rewrite store_last by lia.
  cbn [mem]. unfold elems at 1. rewrite array_of_fresh. cbn [off slen].
  rewrite drop_0.
  assert (<[0 := "["]> (replicate (2 * length L + 1) zero_string)
          = ["["] ++ replicate (2 * length L) zero_string) as ->.
  { replace (2 * length L + 1) with (S (2 * length L)) by lia. done. }
  rewrite (fill_spec L ["["] 0) by done.
  change (["["] ++ concat (item_parts <$> L))
    with ("[" :: concat (item_parts <$> L)).
  rewrite take_ge
    by (rewrite length_insert; simpl; rewrite length_concat_item; lia).
  rewrite strings_Join_flat, (parts_rendering L Hne).
  eexists. split; [done|]. split; [done|].
  intros s' Hs'. simpl. split; [by apply valid_alloc|by apply elems_alloc].
Qed.

(** ** Filtering *)

Lemma take_S_insert (arr : list string) (m : nat) v :
  m < length arr → take (S m) (<[m := v]> arr) = take m arr ++ [v].
Proof.
  intros Hm. rewrite (take_S_r _ _ v) by (by apply list_lookup_insert_eq).
  by rewrite take_insert_ge.
Qed.

(** The loop shared by [Filter] and [MatchFilter]: the new slice starts
    empty in a fresh array with room for every element, the body asks
    [f] at each index and appends what is kept.  The new array is the
    last one of the store and the only one written. *)
Lemma collect_loop (h : heap) (L : list string) (n : nat)
    (f : Z → list string → E → (bool * string) * E)
    (body : Z → slice → M (E := E) (slice + Empty_set)) :
  (∀ k ns arr e, k < n →
     body (Z.of_nat k) ns (World (h ++ [arr]) e)
     = let '((keep, out), e1) := f (Z.of_nat k) L e in
       if keep : bool then
         match append growcap ns out (World (h ++ [arr]) e1) with
         | Some (ns', w') => Some (inl ns', w')
         | None => None
         end
       else Some (inl ns, World (h ++ [arr]) e1)) →
  ∀ todo i m arr e, i + todo = n → m ≤ i → length arr = n →
    ∃ m' arr',
      for_loop todo (Z.of_nat i) body (Slice (Some (length h)) 0 m n)
        (World (h ++ [arr]) e)
      = Some (inl (Slice (Some (length h)) 0 m' n),
              World (h ++ [arr']) (calls_in_order f L (seq i todo) e).2) ∧
      m' ≤ n ∧ length arr' = n ∧
      take m' arr' = take m arr ++ (calls_in_order f L (seq i todo) e).1.
Proof.
  intros Hstep. induction todo as [|todo IH]; intros i m arr e Hn Hm Harr.
  - exists m, arr. simpl. rewrite app_nil_r. split_and!; [done|lia|done|done].
  - simpl. unfold bind. rewrite Hstep by lia.
    destruct (f (Z.of_nat i) L e) as [[keep out] e1].
    replace (Z.of_nat i + 1)%Z with (Z.of_nat (S i)) by lia.
    destruct keep.
    + rewrite append_in_place by lia.
      destruct (IH (S i) (S m) (<[m := out]> arr) e1) as (m' & arr' & -> & ? & ? & Ht);
        [lia|lia|by rewrite length_insert|].
      exists m', arr'.
      destruct (calls_in_order f L (seq (S i) todo) e1) as [outs e2]. simpl in *.
      split_and!; [done|done|done|].
      rewrite Ht, take_S_insert by lia. by rewrite <- (assoc_L (++)).
    + destruct (IH (S i) m arr e1) as (m' & arr' & -> & ? & ? & Ht);
        [lia|lia|done|].
      exists m', arr'.
      by destruct (calls_in_order f L (seq (S i) todo) e1) as [outs e2].
Qed.

(** The verdict of a collecting method, read off the loop. *)
Lemma collect_range (h : heap) (e : E) (s : slice)
    (f : Z → list string → E → (bool * string) * E)
    (body : Z → slice → M (E := E) (slice + Empty_set)) :
  valid h s →
  (∀ k ns arr e, k < slen s →
     body (Z.of_nat k) ns (World (h ++ [arr]) e)
     = let '((keep, out), e1) := f (Z.of_nat k) (elems h s) e in
       if keep : bool then
         match append growcap ns out (World (h ++ [arr]) e1) with
         | Some (ns', w') => Some (inl ns', w')
         | None => None
         end
       else Some (inl ns, World (h ++ [arr]) e1)) →
  ∃ items w',
    (let* items := make 0 (len s) in for_range s body items) (World h e)
    = Some (inl items, w') ∧
    base items = Some (length h) ∧
    valid (mem w') items ∧
    elems (mem w') items
    = (calls_in_order f (elems h s) (seq 0 (length (elems h s))) e).1 ∧
    env w' = (calls_in_order f (elems h s) (seq 0 (length (elems h s))) e).2 ∧
    (∀ s', valid h s' → valid (mem w') s' ∧ elems (mem w') s' = elems h s').
Proof.
  intros Hv Hstep. pose proof (elems_length _ _ Hv) as HL.
  unfold bind, len. change 0%Z with (Z.of_nat 0).
  rewrite make_run by lia. simpl mem. simpl env. unfold for_range.
  destruct (collect_loop h (elems h s) (slen s) f body Hstep (slen s) 0 0
              (replicate (slen s) zero_string) e)
    as (m' & arr' & Hrun & Hm' & Harr' & Ht); [lia|lia|apply length_replicate|].
  change (Z.of_nat 0) with 0%Z in Hrun.
  rewrite Hrun, HL. eexists _, _. split; [done|]. simpl.
  split_and!; [done| | |done|].
  - unfold valid. rewrite array_of_fresh. simpl. rewrite length_app. simpl.
    split_and!; lia.
  - unfold elems. rewrite array_of_fresh. cbn [off slen].
    by rewrite drop_0, Ht.
  - intros s' Hs'. split; [by apply valid_alloc|by apply elems_alloc].
Qed.

(** The case of a function that answers from the index, the items of
    the slice it is handed and a state of its own: [Filter] calls it
    once for each index, in ascending order, each time on the
    elements the list had at the start; the values kept are appended
    in the order of the calls to a list in a fresh array; the elements
    of the receiver, and of every other slice, are as before. *)
Lemma Filter_reader_calls_in_order
    (f : Z → list string → E → (bool * string) * E) list w :
  valid (mem w) (Items list) →
  ∃ list' w',
    Filter growcap list (reader f) w = Some (list', w') ∧
    elems (mem w') (Items list')
    = (calls_in_order f (elems (mem w) (Items list))
         (seq 0 (length (elems (mem w) (Items list)))) (env w)).1 ∧
    env w'
    = (calls_in_order f (elems (mem w) (Items list))
         (seq 0 (length (elems (mem w) (Items list)))) (env w)).2 ∧
    elems (mem w') (Items list) = elems (mem w) (Items list) ∧
    base (Items list') = Some (length (mem w)) ∧
    valid (mem w') (Items list') ∧
    (∀ s', valid (mem w) s' →
       valid (mem w') s' ∧ elems (mem w') s' = elems (mem w) s').
Proof.
  intros Hv. destruct w as [h e]. simpl in *.
  destruct (collect_range h e (Items list) f
    (λ i newItems,
       let* '(addItem, out) := reader f i (Items list) in
       if addItem : bool then
         let* newItems' := append growcap newItems out in ret (inl newItems')
       else ret (inl newItems)) Hv)
    as (items & w' & Hrun & Hbase & Hvi & Hel & Henv & Hframe).
  { intros k ns arr e0 Hk. unfold bind, reader. simpl.
    rewrite elems_alloc by done.
    destruct (f (Z.of_nat k) (elems h (Items list)) e0) as [[keep out] e1].
    by destruct keep. }
  unfold Filter. unfold bind in *. 
  destruct (make 0 (len (Items list)) (World h e)) as [[items0 w0]|]; [|done].
  rewrite Hrun. eexists _, w'. split; [done|]. simpl.
  split_and!; try done. by apply Hframe.
Qed.


Lemma array_of_extend (h more : heap) (s : slice) :
  valid h s → array_of (h ++ more) s = array_of h s.
Proof.
  intros (_ & _ & Hb). unfold array_of. destruct (base s) as [b|]; [|done].
  by rewrite lookup_app_l.
Qed.


Lemma elems_extend (h more : heap) (s : slice) :
  valid h s → elems (h ++ more) s = elems h s.
Proof. intros Hv. unfold elems. by rewrite array_of_extend. Qed.




(** For a function that answers from the items of the slice it is
    handed, the calls in the store are the calls on the elements the
    list had at the start. *)
Lemma calls_in_store_reader
    (f : Z → Datatypes.list string → E → (bool * string) * E)
    (s : slice) (h : heap) (n : nat) (ixs : Datatypes.list nat) :
  valid h s →
  ∀ kept more e,
    calls_in_store (reader f) s h n ixs kept more e
    = (kept ++ (calls_in_order f (elems h s) ixs e).1, more,
       (calls_in_order f (elems h s) ixs e).2).
Proof.
  intros Hv. induction ixs as [|i ixs IH]; intros kept more e.
  - simpl. by rewrite app_nil_r.
  - simpl. unfold answer, reader. cbn [mem env]. rewrite elems_extend by done.
    destruct (f (Z.of_nat i) (elems h s) e) as [[keep out] e1]. cbn [mem env].
    rewrite drop_all, app_nil_r, IH.
    destruct (calls_in_order f (elems h s) ixs e1) as [outs e2].
    destruct keep; simpl; [by rewrite <- (assoc_L (++))|done].
Qed.



Context `{!Regexp_engine}.

Lemma calls_match_at (re : Regexp) (e : E) (rest pre : list string) :
  calls_in_order (match_at re) (pre ++ rest)
    (seq (length pre) (length rest)) e
  = (List.filter (MatchString re) rest, e).
Proof.
  revert pre. induction rest as [|item rest IH]; intros pre; simpl; [done|].
  unfold match_at at 1. rewrite Nat2Z.id, list_lookup_middle by done.
  specialize (IH (pre ++ [item])).
  rewrite <- (assoc_L (++)), length_app in IH. simpl in IH.
  rewrite Nat.add_1_r in IH. rewrite IH.
  by destruct (MatchString re item).
Qed.

(** C8.  When the pattern compiles, [MatchFilter] returns no error and
    a list in a fresh array holding, in their order, exactly the items
    the engine's [MatchString] accepts; the receiver and every other
    slice are as before. *)
Theorem MatchFilter_keeps_matching list (pattern : string) (re : Regexp) w :
  Compile pattern = inl re →
  valid (mem w) (Items list) →
  ∃ list' w',
    MatchFilter growcap list pattern w = Some ((list', None), w') ∧
    elems (mem w') (Items list')
    = List.filter (MatchString re) (elems (mem w) (Items list)) ∧
    env w' = env w ∧
    elems (mem w') (Items list) = elems (mem w) (Items list) ∧
    base (Items list') = Some (length (mem w)) ∧
    valid (mem w') (Items list') ∧
    (∀ s', valid (mem w) s' →
       valid (mem w') s' ∧ elems (mem w') s' = elems (mem w) s').
Proof.
  intros Hre Hv. destruct w as [h e]. simpl in *.
  destruct (collect_range h e (Items list) (match_at re)
    (λ i newItems,
       let* item := load (Items list) i in
       if MatchString re item then
         let* newItems' := append growcap newItems item in ret (inl newItems')
       else ret (inl newItems)) Hv)
    as (items & w' & Hrun & Hbase & Hvi & Hel & Henv & Hframe).
  { intros k ns arr e0 Hk. unfold bind, match_at. rewrite Nat2Z.id.
    destruct (lookup_lt_is_Some_2 (elems h (Items list)) k) as [item Hitem].
    { by rewrite elems_length. }
    rewrite (load_run _ _ item) by (simpl; by rewrite elems_alloc).
    rewrite Hitem. by destruct (MatchString re item). }
  pose proof (calls_match_at re e (elems h (Items list)) []) as Hcalls.
  simpl in Hcalls. rewrite Hcalls in Hel, Henv.
  unfold MatchFilter. rewrite Hre. unfold bind in *.
  destruct (make 0 (len (Items list)) (World h e)) as [[items0 w0]|]; [|done].
  rewrite Hrun. eexists _, w'. split; [done|]. simpl.
  split_and!; try done. by apply Hframe.
Qed.

(** C9.  When the pattern does not compile, both filters hand back the
    engine's error as it is, with an empty list: [MatchFilter] the zero
    value, without touching the store; [ReplaceAllFilter] a list of
    length 0 it had already allocated, every existing slice keeping
    its elements. *)
Theorem filters_report_compile_error list (pattern repl : string) (err : error) w :
  Compile pattern = inr err →
  MatchFilter growcap list pattern w = Some ((zero_StringList, Some err), w) ∧
  elems (mem w) (Items zero_StringList) = [] ∧
  ∃ list' w',
    ReplaceAllFilter growcap list pattern repl w = Some ((list', Some err), w') ∧
    elems (mem w') (Items list') = [] ∧
    env w' = env w ∧
    (∀ s', valid (mem w) s' →
       valid (mem w') s' ∧ elems (mem w') s' = elems (mem w) s').
Proof.
  intros Herr. split; [|split; [done|]].
  - unfold MatchFilter. by rewrite Herr.
  - unfold ReplaceAllFilter, bind, len. change 0%Z with (Z.of_nat 0).
    rewrite make_run by lia. rewrite Herr. eexists _, _. split; [done|]. simpl.
    split_and!; [done|done|].
    intros s' Hs'. split; [by apply valid_alloc|by apply elems_alloc].
Qed.

End Methods.

(** ** The scenarios of the tests and of the specification *)

Section Scenarios.

#[local] Existing Instance Engine.engine.

Lemma valid_list_at (E : Type) (arrs : heap) (e : E) (a n : nat) (arr : list string) :
  arrs !! a = Some arr → length arr = n →
  valid (mem (World arrs e)) (Items (list_at a n)).
Proof.
  intros Ha Hn. unfold valid, array_of. simpl. rewrite Ha. simpl.
  apply lookup_lt_Some in Ha. lia.
Qed.

(** C1.  [Copy] returns the empty list whatever the receiver holds,
    so a list with one element is not equal to its copy. *)
Theorem Copy_loses_the_elements :
  (∀ (E : Type) (list : StringList) (w : @world E),
     Copy list w = Some (zero_StringList, w) ∧
     elems (mem w) (Items zero_StringList) = []) ∧
  (let* c := Copy (list_at 0 1) in IsEqual (list_at 0 1) c) (store_of [["a"]])
  = Some (false, store_of [["a"]]).
Proof. split; [intros E list w; split|]; reflexivity. Qed.

(** Scenario 7: index -1 and index length + 1 on ["a", "b", "d"]. *)
Lemma Insert_out_of_range_witness :
  Insert spare_as_before (list_at 0 3) "c" (-1) (store_of [["a"; "b"; "d"]])
  = Some ((list_at 0 3, Some "index out of range"), store_of [["a"; "b"; "d"]]) ∧
  Insert spare_as_before (list_at 0 3) "c" (3 + 1) (store_of [["a"; "b"; "d"]])
  = Some ((list_at 0 3, Some "index out of range"), store_of [["a"; "b"; "d"]]).
Proof.
  split; apply Insert_out_of_range; unfold len; simpl; lia.
Defined.

(** Scenario 2: "c" inserted at index 2 of ["a", "b", "d"]. *)
Lemma Insert_in_range_witness :
  ∃ list' w',
    Insert spare_as_before (list_at 0 3) "c" 2 (store_of [["a"; "b"; "d"]])
    = Some ((list', None), w') ∧
    elems (mem w') (Items list') = ["a"; "b"; "c"; "d"].
Proof.
  destruct (Insert_in_range spare_as_before (list_at 0 3) "c" 2
              (store_of [["a"; "b"; "d"]]))
    as (list' & w' & Hrun & _ & _ & Hel & _).
  - by eapply valid_list_at.
  - unfold len. simpl. lia.
  - exists list', w'. split; [exact Hrun|]. rewrite Hel. reflexivity.
Defined.

(** Scenario 3: "c" removed from ["a", "b", "c", "d"]. *)
Lemma Remove_first_occurrence_witness :
  ∃ list' w',
    Remove (list_at 0 4) "c" (store_of [["a"; "b"; "c"; "d"]]) = Some (list', w') ∧
    elems (mem w') (Items list') = ["a"; "b"; "d"].
Proof.
  destruct (Remove_first_occurrence (list_at 0 4) "c"
              (store_of [["a"; "b"; "c"; "d"]])) as [_ Hpresent].
  - by eapply valid_list_at.
  - destruct (Hpresent 2) as (list' & w' & Hrun & _ & _ & Hel & _).
    + reflexivity.
    + intros [|[|j]] Hj; simpl; (done || lia).
    + exists list', w'. split; [exact Hrun|]. rewrite Hel. reflexivity.
Defined.

(** Scenario 4: "c" removed from ["a", "b", "c", "d", "e"], the last
    item taking its slot. *)
Lemma RemoveUnordered_first_occurrence_witness :
  ∃ list' w',
    RemoveUnordered (list_at 0 5) "c" (store_of [["a"; "b"; "c"; "d"; "e"]])
    = Some (list', w') ∧
    elems (mem w') (Items list') = ["a"; "b"; "e"; "d"].
Proof.
  destruct (RemoveUnordered_first_occurrence (list_at 0 5) "c"
              (store_of [["a"; "b"; "c"; "d"; "e"]])) as [_ Hpresent].
  - by eapply valid_list_at.
  - destruct (Hpresent 2) as (last & list' & w' & Hlast & Hrun & _ & _ & Hel & _).
    + reflexivity.
    + intros [|[|j]] Hj; simpl; (done || lia).
    + exists list', w'. split; [exact Hrun|]. rewrite Hel.
      simpl in Hlast. injection Hlast as <-. reflexivity.
Defined.

(** The two searches on ["a", "b", "c", "d"], looking for "c". *)
Lemma Contains_iff_IndexOf_witness :
  ∃ (b : bool) (i : Z),
    Contains (list_at 0 4) "c" (store_of [["a"; "b"; "c"; "d"]])
    = Some (b, store_of [["a"; "b"; "c"; "d"]]) ∧
    IndexOf (list_at 0 4) "c" (store_of [["a"; "b"; "c"; "d"]])
    = Some (i, store_of [["a"; "b"; "c"; "d"]]) ∧
    (b = true ↔ (0 ≤ i)%Z) ∧ (b = false ↔ i = (-1)%Z).
Proof.
  apply Contains_iff_IndexOf. by eapply valid_list_at.
Defined.



(** Scenario 5: the items with an upper-case letter followed by
    lower-case ones. *)
Lemma MatchFilter_keeps_matching_witness :
  ∃ list' w',
    MatchFilter spare_as_before (list_at 0 4) "[[:upper:]][[:lower:]]*"
      (store_of [["apple"; "Banana"; "orange"; "Pear"]])
    = Some ((list', None), w') ∧
    elems (mem w') (Items list') = ["Banana"; "Pear"].
Proof.
  destruct (@MatchFilter_keeps_matching unit spare_as_before Engine.engine
              (list_at 0 4) "[[:upper:]][[:lower:]]*"
              [(Engine.Upper, false); (Engine.Lower, true)]
              (store_of [["apple"; "Banana"; "orange"; "Pear"]]))
    as (list' & w' & Hrun & Hel & _).
  - reflexivity.
  - by eapply valid_list_at.
  - exists list', w'. split; [exact Hrun|]. rewrite Hel. reflexivity.
Defined.

(** A pattern with an unclosed bracket, given to both filters. *)
Lemma filters_report_compile_error_witness :
  MatchFilter spare_as_before (list_at 0 4) "[a"
    (store_of [["apple"; "Banana"; "orange"; "Pear"]])
  = Some ((zero_StringList,
           Some "error parsing regexp: missing closing ]: `[a`"),
          store_of [["apple"; "Banana"; "orange"; "Pear"]]) ∧
  ∃ list' w',
    ReplaceAllFilter spare_as_before (list_at 0 4) "[a" "A"
      (store_of [["apple"; "Banana"; "orange"; "Pear"]])
    = Some ((list', Some "error parsing regexp: missing closing ]: `[a`"), w') ∧
    elems (mem w') (Items list') = [] ∧
    elems (mem w') (Items (list_at 0 4)) = ["apple"; "Banana"; "orange"; "Pear"].
Proof.
  destruct (filters_report_compile_error spare_as_before (list_at 0 4) "[a" "A"
              "error parsing regexp: missing closing ]: `[a`"
              (store_of [["apple"; "Banana"; "orange"; "Pear"]]))
    as (Hmatch & _ & list' & w' & Hrun & Hel & _ & Hframe).
  - reflexivity.
  - split; [exact Hmatch|]. exists list', w'. split; [exact Hrun|].
    split; [exact Hel|].
    destruct (Hframe (Items (list_at 0 4))) as [_ ->]; [|reflexivity].
    by eapply valid_list_at.
Defined.

(** Two items: the rendering of the specification's example. *)
Example ToString_two_items :
  ∃ w',
    ToString (list_at 0 2) (store_of [["a"; "b"]])
    = Some ("[" +:+ quoted "a" +:+ "," +:+ quoted "b" +:+ "]", w').
Proof. eexists. reflexivity. Qed.

(** Scenario 6 of the specification, on the small engine. *)
Example ReplaceAllFilter_a_by_A :
  ∃ list' w',
    ReplaceAllFilter spare_as_before (list_at 0 4) "a" "A"
      (store_of [["apple"; "Banana"; "orange"; "Pear"]])
    = Some ((list', None), w') ∧
    elems (mem w') (Items list') = ["Apple"; "BAnAnA"; "orAnge"; "PeAr"].
Proof. eexists _, _. split; reflexivity. Qed.

End Scenarios.

(** ** Further properties of the methods *)

Lemma elems_prefix (h : heap) (s s1 : slice) :
  base s = base s1 → off s = off s1 → slen s ≤ slen s1 →
  elems h s = take (slen s) (elems h s1).
Proof.
  intros Hb Ho Hl. unfold elems, array_of. rewrite Hb, Ho.
  rewrite take_take. by rewrite Nat.min_l.
Qed.

Lemma elems_nil_iff (h : heap) (s : slice) :
  valid h s → elems h s = [] ↔ slen s = 0.
Proof.
  intros Hv. rewrite <- (elems_length _ _ Hv).
  destruct (elems h s); simpl; split; (done || lia).
Qed.

(** Two lists of the same length compared item by item: the first
    index where they differ stops the comparison. *)
Lemma first_hit_differs (L2 : list string) :
  ∀ rest1 rest2 pre2,
    L2 = pre2 ++ rest2 → length rest1 = length rest2 →
    first_hit
      (λ k v, match L2 !! k with
              | Some b => if negb (String.eqb v b) then Some false else None
              | None => None
              end)
      (length pre2) rest1
    = if decide (rest1 = rest2) then None else Some false.
Proof.
  induction rest1 as [|v r1 IH]; intros rest2 pre2 HL Hlen.
  - destruct rest2; [|done]. done.
  - destruct rest2 as [|b r2]; [done|]. simpl first_hit.
    rewrite HL, list_lookup_middle by done.
    destruct (String.eqb_spec v b) as [->|Hne]; simpl.
    + specialize (IH r2 (pre2 ++ [b])).
      rewrite length_app in IH. simpl in IH. rewrite Nat.add_1_r in IH.
      rewrite <- HL, IH.
      * destruct (decide (r1 = r2)) as [->|Hr].
        -- by rewrite decide_True.
        -- rewrite decide_False; [done|]. by intros [= ?].
      * by rewrite <- (assoc_L (++)).
      * simpl in Hlen. lia.
    + rewrite decide_False; [done|]. by intros [= ? ?].
Qed.

Lemma first_index_le (str : string) (l : list string) (k : nat) :
  l !! k = Some str → ∃ j, first_index str l = Some j ∧ j ≤ k.
Proof.
  intros Hk. destruct (first_index str l) as [j|] eqn:Hj.
  - exists j. split; [done|]. apply first_index_Some in Hj as [_ Hfirst].
    destruct (decide (j ≤ k)); [done|]. exfalso. apply (Hfirst k); [lia|done].
  - apply first_index_None in Hj. exfalso. apply Hj.
    by apply list_elem_of_lookup_2 in Hk.
Qed.

Lemma first_index_member (str : string) (l : list string) :
  str ∈ l →
  ∃ i, l !! i = Some str ∧ ∀ j, j < i → l !! j ≠ Some str.
Proof.
  intros Hin. destruct (first_index str l) as [i|] eqn:Hi.
  - exists i. by apply first_index_Some.
  - by apply first_index_None in Hi.
Qed.

(** Closing the gap at [i], seen on the whole old window: the last
    slot keeps what it held. *)
Lemma shift_left_whole (L : list string) (i : nat) :
  i < length L →
  list_inserts i
    (take (Nat.min (length L - i) (length L - S i)) (drop (S i) L)) L
  = take i L ++ drop (S i) L ++ drop (length L - 1) L.
Proof.
  intros Hi. rewrite Nat.min_r by lia.
  rewrite (take_ge (drop (S i) L)) by (rewrite length_drop; lia).
  rewrite list_inserts_split by (rewrite length_drop; lia).
  rewrite length_drop. do 3 f_equal. lia.
Qed.

(** Taking an item out by moving the last one into its slot keeps the
    other items, in some order. *)
Lemma swap_remove_Permutation (L : list string) (i : nat) (x last : string) :
  L !! i = Some x → L !! (length L - 1) = Some last →
  x :: take (length L - 1) (<[i := last]> L) ≡ₚ L.
Proof.
  intros Hi Hlast.
  assert (∃ A, L = A ++ [last]) as [A ->].
  { exists (take (length L - 1) L). rewrite <- (take_S_r _ _ _ Hlast).
    apply lookup_lt_Some in Hlast.
    replace (S (length L - 1)) with (length L) by lia. by rewrite firstn_all. }
  rewrite length_app. simpl. replace (length A + 1 - 1) with (length A) by lia.
  destruct (decide (i = length A)) as [->|Hne].
  - rewrite list_lookup_middle in Hi by done. simplify_eq.
    rewrite insert_app_r_alt, Nat.sub_diag by done. simpl.
    rewrite take_app_length. apply Permutation_cons_append.
  - assert (i < length A) as Hlt.
    { apply lookup_lt_Some in Hi. rewrite length_app in Hi. simpl in Hi. lia. }
    rewrite lookup_app_l in Hi by done.
    rewrite insert_app_l by done.
    rewrite take_app_length' by (by rewrite length_insert).
    rewrite <- Permutation_cons_append.
    rewrite insert_take_drop by done.
    rewrite <- (take_drop_middle A i x Hi) at 3.
    rewrite <- !Permutation_middle. apply perm_swap.
Qed.

Lemma calls_keep_mapped {E} (g : string → string) (e : E)
    (rest pre : list string) :
  calls_in_order (keep_mapped g) (pre ++ rest)
    (seq (length pre) (length rest)) e
  = (g <$> rest, e).
Proof.
  revert pre. induction rest as [|item rest IH]; intros pre; simpl; [done|].
  unfold keep_mapped at 1. rewrite Nat2Z.id, list_lookup_middle by done.
  specialize (IH (pre ++ [item])).
  rewrite <- (assoc_L (++)), length_app in IH. simpl in IH.
  rewrite Nat.add_1_r in IH. by rewrite IH.
Qed.

Lemma valid_fresh (h : heap) (arr : list string) (n c : nat) :
  n ≤ c → c ≤ length arr →
  valid (h ++ [arr]) (Slice (Some (length h)) 0 n c).
Proof.
  intros Hn Hc. unfold valid. rewrite array_of_fresh. simpl.
  rewrite length_app. simpl. split_and!; lia.
Qed.

Section Further.

Context {E : Type}.
Variable growcap : nat → nat → nat.
Implicit Types (w : @world E) (list : StringList) (str v : string).

(** X1.  [New] never fails: it gives a valid list with no element, on an
    array the store did not have, every existing slice is as before,
    and [IsEmpty] answers true on it. *)
Theorem New_is_empty w :
  ∃ list' w',
    New w = Some (list', w') ∧
    valid (mem w') (Items list') ∧
    elems (mem w') (Items list') = [] ∧
    base (Items list') = Some (length (mem w)) ∧
    env w' = env w ∧
    IsEmpty list' w' = Some (true, w') ∧
    (∀ s', valid (mem w) s' →
       valid (mem w') s' ∧ elems (mem w') s' = elems (mem w) s').
Proof.
  unfold New, bind, ret. change 0%Z with (Z.of_nat 0).
  rewrite make_run by done. eexists _, _. split; [done|]. simpl.
  split_and!; try done.
  - unfold valid. rewrite array_of_fresh. simpl. rewrite length_app. simpl.
    split_and!; lia.
  - intros s' Hs'. split; [by apply valid_alloc|by apply elems_alloc].
Qed.

(** What [Append] does, in full. *)
Lemma Append_run list v w :
  valid (mem w) (Items list) →
  ∃ list' w',
    Append growcap list v w = Some (list', w') ∧
    valid (mem w') (Items list') ∧
    env w' = env w ∧
    elems (mem w') (Items list') = elems (mem w) (Items list) ++ [v] ∧
    elems (mem w') (Items list) = elems (mem w) (Items list) ∧
    (∀ s', valid (mem w) s' → valid (mem w') s') ∧
    (∀ s', valid (mem w) s' → base s' ≠ base (Items list) →
       elems (mem w') s' = elems (mem w) s').
Proof.
  intros Hv. unfold Append, bind.
  destruct (append_spec growcap _ v w Hv)
    as (s1 & w1 & a1 & -> & Hb1 & Hl1 & Hv1 & He1 & Henv1 & Hroom & Hval & Hframe).
  eexists _, w1. split; [done|]. simpl. split_and!; try done.
  - destruct (decide (slen (Items list) < scap (Items list))) as [Hr|Hr].
    + rewrite (elems_prefix _ (Items list) s1); rewrite ?(Hroom Hr); simpl;
        try done; [|lia].
      rewrite <- (Hroom Hr), He1, take_app_length'; [done|].
      by rewrite elems_length.
    + apply Hframe; [done|by right].
  - intros s' Hs' Hne. apply Hframe; [done|by left].
Qed.

(** X2.  [Append] never fails on a valid list: the new list shows the old
    elements and then the value, so it is one longer and not empty;
    what the receiver's former header shows, and every slice on another
    array, is as before. *)
Theorem Append_adds_last list v w :
  valid (mem w) (Items list) →
  ∃ list' w',
    Append growcap list v w = Some (list', w') ∧
    valid (mem w') (Items list') ∧
    elems (mem w') (Items list') = elems (mem w) (Items list) ++ [v] ∧
    len (Items list') = (len (Items list) + 1)%Z ∧
    IsEmpty list' w' = Some (false, w') ∧
    elems (mem w') (Items list) = elems (mem w) (Items list) ∧
    (∀ s', valid (mem w) s' → base s' ≠ base (Items list) →
       elems (mem w') s' = elems (mem w) s').
Proof.
  intros Hv.
  destruct (Append_run list v w Hv)
    as (list' & w' & Hrun & Hv' & _ & He & Hold & _ & Hframe).
  exists list', w'. split_and!; try done.
  - pose proof (elems_length _ _ Hv'). pose proof (elems_length _ _ Hv).
    rewrite He, length_app in *. simpl in *. unfold len. lia.
  - unfold IsEmpty, ret. do 2 f_equal. apply Z.eqb_neq.
    pose proof (elems_length _ _ Hv') as Hl. rewrite He, length_app in Hl.
    simpl in Hl. unfold len. lia.
Qed.

(** Appending the values of [vs] one after the other to a valid list
    adds them at the end, in their order. *)
Lemma Appends_run (vs : Datatypes.list string) : ∀ list w,
  valid (mem w) (Items list) →
  ∃ list' w',
    Appends growcap list vs w = Some (list', w') ∧
    valid (mem w') (Items list') ∧
    elems (mem w') (Items list') = elems (mem w) (Items list) ++ vs.
Proof.
  induction vs as [|v vs IH]; intros list w Hv.
  - exists list, w. simpl. by rewrite app_nil_r.
  - simpl. unfold bind.
    destruct (Append_run list v w Hv) as (l1 & w1 & -> & Hv1 & _ & He1 & _).
    destruct (IH l1 w1 Hv1) as (l2 & w2 & -> & Hv2 & He2).
    exists l2, w2. split_and!; try done.
    by rewrite He2, He1, <- (assoc_L (++)).
Qed.

(** X3.  A list made by [New] and filled by [Append] holds exactly the
    values appended, in the order of the calls. *)
Theorem New_then_Appends (vs : Datatypes.list string) w :
  ∃ list' w',
    (let* list := New in Appends growcap list vs) w = Some (list', w') ∧
    valid (mem w') (Items list') ∧
    elems (mem w') (Items list') = vs ∧
    len (Items list') = Z.of_nat (length vs).
Proof.
  unfold bind at 1. unfold New, bind, ret. change 0%Z with (Z.of_nat 0).
  rewrite make_run by done.
  destruct (Appends_run vs {| Items := Slice (Some (length (mem w))) 0 0 0 |}
              (World (mem w ++ [replicate 0 zero_string]) (env w)))
    as (l2 & w2 & -> & Hv2 & He2).
  { simpl. by apply valid_fresh. }
  exists l2, w2. split; [done|]. split; [done|].
  assert (elems (mem w2) (Items l2) = vs) as Hvs.
  { rewrite He2. cbn [mem Items]. unfold elems. by rewrite array_of_fresh. }
  split; [done|]. unfold len. by rewrite <- (elems_length _ _ Hv2), Hvs.
Qed.

(** X4.  [IsEqual] never fails on valid lists, writes nothing, and answers
    true exactly when the two lists show the same items in the same
    order. *)
Theorem IsEqual_decides_equality list list2 w :
  valid (mem w) (Items list) →
  valid (mem w) (Items list2) →
  IsEqual list list2 w
  = Some (bool_decide (elems (mem w) (Items list) = elems (mem w) (Items list2)), w).
Proof.
  intros Hv Hv2.
  pose proof (elems_length _ _ Hv) as HL. pose proof (elems_length _ _ Hv2) as HL2.
  unfold IsEqual, len.
  destruct (Z.eqb_spec (Z.of_nat (slen (Items list))) (Z.of_nat (slen (Items list2))))
    as [Heq|Hne]; simpl.
  - unfold bind.
    rewrite (for_range_first_hit _
      (λ k v, match elems (mem w) (Items list2) !! k with
              | Some b => if negb (String.eqb v b) then Some false else None
              | None => None
              end)); [|done|].
    + rewrite (first_hit_differs _ _ (elems (mem w) (Items list2)) []); [|done|lia].
      destruct (decide (elems (mem w) (Items list) = elems (mem w) (Items list2)))
        as [->|Hd]; simpl.
      * by rewrite bool_decide_eq_true_2.
      * by rewrite bool_decide_eq_false_2.
    + intros k v Hk. unfold bind. rewrite (load_run _ _ _ _ Hk).
      destruct (lookup_lt_is_Some_2 (elems (mem w) (Items list2)) k) as [b Hb].
      { apply lookup_lt_Some in Hk. lia. }
      rewrite (load_run _ _ _ _ Hb), Hb.
      by destruct (negb (String.eqb v b)).
  - unfold ret. rewrite bool_decide_eq_false_2; [done|].
    intros Hsame. rewrite Hsame in HL. lia.
Qed.

(** X5.  [IndexOf] never fails on a valid list and writes nothing: it
    answers -1 when no item equals the value, and otherwise the index
    of the first item that does. *)
Theorem IndexOf_finds_first list str w :
  valid (mem w) (Items list) →
  ∃ i : Z,
    IndexOf list str w = Some (i, w) ∧
    ((i = (-1)%Z ∧ str ∉ elems (mem w) (Items list)) ∨
     ((0 ≤ i)%Z ∧
      elems (mem w) (Items list) !! Z.to_nat i = Some str ∧
      ∀ j, j < Z.to_nat i → elems (mem w) (Items list) !! j ≠ Some str)).
Proof.
  intros Hv. eexists. split; [by apply IndexOf_run|].
  destruct (first_index str (elems (mem w) (Items list))) as [k|] eqn:Hk; simpl.
  - right. apply first_index_Some in Hk as [Hk Hfirst].
    rewrite Nat2Z.id. split_and!; [lia|done|done].
  - left. by apply first_index_None in Hk.
Qed.

Lemma Contains_decides list str w :
  valid (mem w) (Items list) →
  Contains list str w
  = Some (bool_decide (str ∈ elems (mem w) (Items list)), w).
Proof.
  intros Hv. rewrite Contains_run by done. do 2 f_equal.
  destruct (first_index str (elems (mem w) (Items list))) as [k|] eqn:Hk.
  - apply first_index_Some in Hk as [Hk _]. apply list_elem_of_lookup_2 in Hk.
    rewrite bool_decide_eq_true_2 by eauto. by rewrite bool_decide_eq_true_2.
  - apply first_index_None in Hk.
    rewrite bool_decide_eq_false_2 by (by intros [? ?]).
    by rewrite bool_decide_eq_false_2.
Qed.

(** X6.  [Contains] never fails on a valid list and writes nothing: it
    answers true exactly when some item equals the value. *)
Theorem Contains_iff_member list str w :
  valid (mem w) (Items list) →
  Contains list str w
  = Some (bool_decide (str ∈ elems (mem w) (Items list)), w).
Proof. apply Contains_decides. Qed.

(** ** Insertion and removal, with what becomes of the array *)

Lemma copy_other (dst src s' : slice) (n : Z) w w' :
  copy dst src w = Some (n, w') → base s' ≠ base dst →
  elems (mem w') s' = elems (mem w) s'.
Proof.
  unfold copy. destruct (base dst) as [a|]; [|by intros [= _ <-]].
  destruct (mem w !! a); [|done]. intros [= _ <-] Hne. simpl.
  by apply elems_insert_other.
Qed.

Lemma append_full (s : slice) v w :
  ¬ slen s < scap s →
  ∃ c w', append growcap s v w
          = Some (Slice (Some (length (mem w))) 0 (S (slen s)) c, w').
Proof.
  intros Hfull. unfold append. rewrite decide_False by done. simpl. eauto.
Qed.

Lemma valid_base_lt (h : heap) (s' : slice) :
  valid h s' → base s' ≠ Some (length h).
Proof.
  intros (_ & _ & Hb) Heq. rewrite Heq in Hb. lia.
Qed.

(** What [Insert] does with an index in range, in full. *)
Lemma Insert_run list v (k : nat) w :
  valid (mem w) (Items list) → k ≤ slen (Items list) →
  ∃ list' w',
    Insert growcap list v (Z.of_nat k) w = Some ((list', None), w') ∧
    valid (mem w') (Items list') ∧
    env w' = env w ∧
    elems (mem w') (Items list')
    = take k (elems (mem w) (Items list)) ++ v :: drop k (elems (mem w) (Items list)) ∧
    (∀ s', valid (mem w) s' → valid (mem w') s') ∧
    (slen (Items list) < scap (Items list) →
       Items list' = Slice (base (Items list)) (off (Items list))
                       (S (slen (Items list))) (scap (Items list))) ∧
    (¬ slen (Items list) < scap (Items list) →
       base (Items list') = Some (length (mem w)) ∧
       ∀ s', valid (mem w) s' → elems (mem w') s' = elems (mem w) s').
Proof.
  intros Hv Hk. pose proof (elems_length _ _ Hv) as HL.
  set (L := elems (mem w) (Items list)) in *.
  unfold Insert.
  replace ((Z.of_nat k <? 0)%Z || (Z.of_nat k >? len (Items list))%Z) with false.
  2:{ symmetry. apply orb_false_iff. rewrite Z.ltb_ge, Z.gtb_ltb, Z.ltb_ge.
      unfold len. lia. }
  unfold bind.
  destruct (append_spec growcap _ v w Hv)
    as (s1 & w1 & a1 & Happ & Hb1 & Hl1 & Hv1 & He1 & Henv1 & Hroom & Hval1 & Hfr1).
  rewrite Happ.
  replace (Z.of_nat k + 1)%Z with (Z.of_nat (S k)) by lia.
  unfold len at 1 2. pose proof Hv1 as (Hlc1 & _).
  rewrite !reslice_run by lia.
  destruct (copy_within s1 (S k) k w1 Hv1) as (n & w2 & Hcopy & Henv2 & Hv2 & He2);
    [lia|lia|]. rewrite Hcopy.
  destruct (store_spec s1 k v w2 (Hv2 _ Hv1))
    as (w3 & -> & Henv3 & Hv3 & He3 & Hfr3); [lia|].
  eexists _, w3. split; [done|]. simpl. split_and!.
  - by apply Hv3, Hv2.
  - congruence.
  - rewrite He3, He2, He1, Hl1. fold L. rewrite <- HL.
    replace (S (length L) - S k) with (length L - k) by lia.
    apply shift_right_insert. lia.
  - intros s' Hs'. by apply Hv3, Hv2, Hval1.
  - done.
  - intros Hfull. destruct (append_full (Items list) v w Hfull) as (c & w1' & Happ').
    rewrite Happ in Happ'. injection Happ' as -> _. split; [done|].
    intros s' Hs'. pose proof (valid_base_lt _ _ Hs') as Hne.
    rewrite Hfr3 by done. rewrite (copy_other _ _ s' _ _ _ Hcopy) by done.
    apply Hfr1; [done|by right].
Qed.

(** What [Remove] does with a value that is present, in full: the new
    header is the old one made one shorter. *)
Lemma Remove_run list str (i : nat) w :
  valid (mem w) (Items list) →
  elems (mem w) (Items list) !! i = Some str →
  (∀ j, j < i → elems (mem w) (Items list) !! j ≠ Some str) →
  ∃ w',
    Remove list str w
    = Some ({| Items := window (Items list) 0 (slen (Items list) - 1) |}, w') ∧
    env w' = env w ∧
    (∀ s', valid (mem w) s' → valid (mem w') s') ∧
    elems (mem w') (Items list)
    = take i (elems (mem w) (Items list))
      ++ drop (S i) (elems (mem w) (Items list))
      ++ drop (length (elems (mem w) (Items list)) - 1) (elems (mem w) (Items list)) ∧
    (∀ s', base s' ≠ base (Items list) → elems (mem w') s' = elems (mem w) s').
Proof.
  intros Hv Hi Hfirst. pose proof (elems_length _ _ Hv) as HL.
  set (L := elems (mem w) (Items list)) in *.
  unfold Remove, bind. rewrite IndexOf_run by done. fold L.
  assert (first_index str L = Some i) as -> by (by apply first_index_Some).
  simpl. assert (i < length L) as Hlt by (by apply lookup_lt_Some in Hi).
  replace (Z.of_nat i <? 0)%Z with false by (symmetry; apply Z.ltb_ge; lia).
  replace (Z.of_nat i + 1)%Z with (Z.of_nat (S i)) by lia.
  replace (len (Items list) - 1)%Z with (Z.of_nat (slen (Items list) - 1))
    by (unfold len; lia).
  unfold len. pose proof Hv as (Hlc & _).
  rewrite !reslice_run by lia.
  destruct (copy_within (Items list) i (S i) w Hv)
    as (n & w1 & Hcopy & Henv1 & Hv1 & He1); [lia|lia|]. rewrite Hcopy.
  change (Z.of_nat 0) with 0%Z.
  rewrite (reslice_run _ 0 (slen (Items list) - 1)) by lia.
  exists w1. split_and!; try done.
  - rewrite He1. fold L. rewrite <- HL. by apply shift_left_whole.
  - intros s' Hne. by apply (copy_other _ _ s' _ _ _ Hcopy).
Qed.

(** What [RemoveUnordered] does with a value that is present, in full. *)
Lemma RemoveUnordered_run list str (i : nat) (last : string) w :
  valid (mem w) (Items list) →
  elems (mem w) (Items list) !! i = Some str →
  (∀ j, j < i → elems (mem w) (Items list) !! j ≠ Some str) →
  elems (mem w) (Items list) !! (slen (Items list) - 1) = Some last →
  ∃ w',
    RemoveUnordered list str w
    = Some ({| Items := window (Items list) 0 (slen (Items list) - 1) |}, w') ∧
    env w' = env w ∧
    (∀ s', valid (mem w) s' → valid (mem w') s') ∧
    elems (mem w') (Items list) = <[i := last]> (elems (mem w) (Items list)) ∧
    (∀ s', base s' ≠ base (Items list) → elems (mem w') s' = elems (mem w) s').
Proof.
  intros Hv Hi Hfirst Hlast. pose proof (elems_length _ _ Hv) as HL.
  set (L := elems (mem w) (Items list)) in *.
  unfold RemoveUnordered, bind. rewrite IndexOf_run by done. fold L.
  assert (first_index str L = Some i) as -> by (by apply first_index_Some).
  simpl. assert (i < length L) as Hlt by (by apply lookup_lt_Some in Hi).
  replace (Z.of_nat i <? 0)%Z with false by (symmetry; apply Z.ltb_ge; lia).
  replace (len (Items list) - 1)%Z with (Z.of_nat (slen (Items list) - 1))
    by (unfold len; lia).
  rewrite (load_run _ _ last) by done.
  destruct (store_spec (Items list) i last w Hv)
    as (w1 & -> & Henv1 & Hv1 & He1 & Hfr1); [lia|].
  pose proof Hv as (Hlc & _).
  change 0%Z with (Z.of_nat 0). rewrite reslice_run by lia.
  exists w1. split_and!; done.
Qed.

(** The elements of a header made one shorter. *)
Lemma elems_shorter (h : heap) (s : slice) :
  valid h s →
  elems h (window s 0 (slen s - 1)) = take (slen s - 1) (elems h s).
Proof.
  intros Hv. rewrite elems_window by (done || lia).
  by rewrite Nat.sub_0_r, drop_0.
Qed.

(** X7.  [Insert] and then [Remove] of the same value gives back the list,
    provided the value does not occur before the index (otherwise
    [Remove] would take that earlier occurrence). *)
Theorem Insert_then_Remove list str (index : Z) w :
  valid (mem w) (Items list) →
  (0 ≤ index ≤ len (Items list))%Z →
  str ∉ take (Z.to_nat index) (elems (mem w) (Items list)) →
  ∃ list1 w1 list2 w2,
    Insert growcap list str index w = Some ((list1, None), w1) ∧
    Remove list1 str w1 = Some (list2, w2) ∧
    valid (mem w2) (Items list2) ∧
    elems (mem w2) (Items list2) = elems (mem w) (Items list).
Proof.
  intros Hv Hi Hbefore. unfold len in Hi.
  assert (∃ k : nat, index = Z.of_nat k) as [k ->]
    by (exists (Z.to_nat index); lia).
  rewrite Nat2Z.id in Hbefore.
  pose proof (elems_length _ _ Hv) as HL.
  set (L := elems (mem w) (Items list)) in *.
  destruct (Insert_run list str k w Hv) as (l1 & w1 & Hins & Hv1 & _ & He1 & _);
    [lia|]. fold L in He1.
  assert (Hlen : length (take k L) = k) by (rewrite length_take; lia).
  destruct (Remove_run l1 str k w1 Hv1) as (w2 & Hrem & _ & Hval2 & Hold & _).
  { rewrite He1, lookup_inserted by lia.
    by rewrite decide_False, decide_True by lia. }
  { intros j Hj. rewrite He1, lookup_inserted by lia. rewrite decide_True by done.
    intros Hhit. apply Hbefore. apply list_elem_of_lookup. exists j.
    by rewrite lookup_take_lt. }
  pose proof (elems_length _ _ Hv1) as HL1.
  eexists l1, w1, _, w2. split; [done|]. split; [done|]. split.
  - apply valid_window; [by apply Hval2|]. destruct Hv1 as (? & _). lia.
  - simpl. rewrite elems_shorter by (by apply Hval2).
    rewrite Hold, <- HL1, He1.
    assert (length (take k L ++ str :: drop k L) = S (length L)) as Hlen1.
    { rewrite length_app, Hlen. simpl. rewrite length_drop. lia. }
    rewrite Hlen1. replace (S (length L) - 1) with (length L) by lia.
    assert (take k (take k L ++ str :: drop k L) = take k L) as ->
      by (by apply take_app_length').
    assert (drop (S k) (take k L ++ str :: drop k L) = drop k L) as ->.
    { rewrite drop_app_ge by lia. rewrite Hlen.
      by replace (S k - k) with 1 by lia. }
    rewrite (assoc_L (++)), take_drop.
    by apply take_app_length'.
Qed.

(** X8.  After a successful [Insert] the value is found: [Contains] answers
    true and [IndexOf] an index from 0 to the index of insertion, which
    it reaches when the value does not occur earlier. *)
Theorem Insert_then_lookup list str (index : Z) w :
  valid (mem w) (Items list) →
  (0 ≤ index ≤ len (Items list))%Z →
  ∃ list1 w1 (i : Z),
    Insert growcap list str index w = Some ((list1, None), w1) ∧
    Contains list1 str w1 = Some (true, w1) ∧
    IndexOf list1 str w1 = Some (i, w1) ∧
    (0 ≤ i ≤ index)%Z ∧
    (str ∉ take (Z.to_nat index) (elems (mem w) (Items list)) → i = index).
Proof.
  intros Hv Hi. unfold len in Hi.
  assert (∃ k : nat, index = Z.of_nat k) as [k ->]
    by (exists (Z.to_nat index); lia).
  rewrite Nat2Z.id.
  pose proof (elems_length _ _ Hv) as HL.
  set (L := elems (mem w) (Items list)) in *.
  destruct (Insert_run list str k w Hv) as (l1 & w1 & Hins & Hv1 & _ & He1 & _);
    [lia|]. fold L in He1.
  assert (Hat : elems (mem w1) (Items l1) !! k = Some str).
  { rewrite He1, lookup_inserted by lia.
    by rewrite decide_False, decide_True by lia. }
  destruct (first_index_le _ _ _ Hat) as (j & Hj & Hjk).
  exists l1, w1, (Z.of_nat j). split; [done|].
  rewrite Contains_run, IndexOf_run by done. rewrite Hj. simpl.
  split; [done|]. split; [done|].
  split; [lia|]. intros Hbefore.
  apply first_index_Some in Hj as [Hj _].
  destruct (decide (j = k)) as [->|Hne]; [done|]. exfalso. apply Hbefore.
  rewrite He1, lookup_inserted in Hj by lia. rewrite decide_True in Hj by lia.
  apply list_elem_of_lookup. exists j. rewrite lookup_take_lt by lia. done.
Qed.

(** X9.  [Insert] and the array.  With room after the last item the list
    stays in its array, and the receiver's former header shows the new
    items but the last; with no room the list moves to an array the
    store did not have and every existing slice keeps its elements. *)
Theorem Insert_and_the_array list v (index : Z) w :
  valid (mem w) (Items list) →
  (0 ≤ index ≤ len (Items list))%Z →
  ∃ list' w',
    Insert growcap list v index w = Some ((list', None), w') ∧
    (slen (Items list) < scap (Items list) →
       base (Items list') = base (Items list) ∧
       elems (mem w') (Items list)
       = take (slen (Items list))
           (take (Z.to_nat index) (elems (mem w) (Items list))
            ++ v :: drop (Z.to_nat index) (elems (mem w) (Items list)))) ∧
    (slen (Items list) = scap (Items list) →
       base (Items list') = Some (length (mem w)) ∧
       ∀ s', valid (mem w) s' → elems (mem w') s' = elems (mem w) s').
Proof.
  intros Hv Hi. unfold len in Hi.
  assert (∃ k : nat, index = Z.of_nat k) as [k ->]
    by (exists (Z.to_nat index); lia).
  rewrite Nat2Z.id.
  destruct (Insert_run list v k w Hv)
    as (l1 & w1 & Hins & Hv1 & _ & He1 & _ & Hroom & Hfull); [lia|].
  exists l1, w1. split; [done|]. split.
  - intros Hr. specialize (Hroom Hr). rewrite Hroom. split; [done|].
    rewrite <- He1. apply elems_prefix; rewrite Hroom; simpl; (done || lia).
  - intros Heq. apply Hfull. lia.
Qed.

(** X10.  [Remove] and the array.  The list stays in its array with the
    capacity it had; the slot after its new last item still holds the
    old last item, so the receiver's former header shows the new items
    and then that item once more.  Slices on other arrays are as
    before. *)
Theorem Remove_and_the_array list str (i : nat) w :
  valid (mem w) (Items list) →
  elems (mem w) (Items list) !! i = Some str →
  (∀ j, j < i → elems (mem w) (Items list) !! j ≠ Some str) →
  ∃ list' w' last,
    Remove list str w = Some (list', w') ∧
    base (Items list') = base (Items list) ∧
    off (Items list') = off (Items list) ∧
    scap (Items list') = scap (Items list) ∧
    S (slen (Items list')) = slen (Items list) ∧
    elems (mem w) (Items list) !! (slen (Items list) - 1) = Some last ∧
    elems (mem w') (Items list)
    = take i (elems (mem w) (Items list))
      ++ drop (S i) (elems (mem w) (Items list)) ++ [last] ∧
    (∀ s', base s' ≠ base (Items list) → elems (mem w') s' = elems (mem w) s').
Proof.
  intros Hv Hi Hfirst. pose proof (elems_length _ _ Hv) as HL.
  assert (i < slen (Items list)) as Hlt by (apply lookup_lt_Some in Hi; lia).
  destruct (lookup_lt_is_Some_2 (elems (mem w) (Items list)) (slen (Items list) - 1))
    as [last Hlast]; [lia|].
  destruct (Remove_run list str i w Hv Hi Hfirst) as (w' & Hrun & _ & _ & Hold & Hfr).
  eexists _, w', last. split; [done|]. simpl.
  split_and!; try done; try lia.
  rewrite Hold, HL. do 2 f_equal.
  rewrite (drop_S _ _ _ Hlast). rewrite drop_ge by lia. done.
Qed.

(** X11.  [RemoveUnordered] of a value that is present takes out one
    occurrence and keeps every other item, in some order: putting the
    value back in front gives a rearrangement of the old list. *)
Theorem RemoveUnordered_keeps_the_others list str w :
  valid (mem w) (Items list) →
  str ∈ elems (mem w) (Items list) →
  ∃ list' w',
    RemoveUnordered list str w = Some (list', w') ∧
    valid (mem w') (Items list') ∧
    str :: elems (mem w') (Items list') ≡ₚ elems (mem w) (Items list) ∧
    S (length (elems (mem w') (Items list')))
    = length (elems (mem w) (Items list)).
Proof.
  intros Hv Hin. pose proof (elems_length _ _ Hv) as HL.
  destruct (first_index_member _ _ Hin) as (i & Hi & Hfirst).
  assert (i < slen (Items list)) as Hlt by (apply lookup_lt_Some in Hi; lia).
  destruct (lookup_lt_is_Some_2 (elems (mem w) (Items list)) (slen (Items list) - 1))
    as [last Hlast]; [lia|].
  destruct (RemoveUnordered_run list str i last w Hv Hi Hfirst Hlast)
    as (w' & Hrun & _ & Hval & Hold & _).
  eexists _, w'. split; [done|]. simpl.
  assert (Hel : elems (mem w') (window (Items list) 0 (slen (Items list) - 1))
                = take (length (elems (mem w) (Items list)) - 1)
                    (<[i := last]> (elems (mem w) (Items list)))).
  { rewrite elems_shorter by (by apply Hval). by rewrite Hold, HL. }
  split_and!.
  - apply valid_window; [by apply Hval|]. destruct Hv as (? & _). lia.
  - rewrite Hel. apply swap_remove_Permutation; [done|by rewrite HL].
  - rewrite Hel, length_take, length_insert. lia.
Qed.

(** X12.  [Remove] takes out the first occurrence only: afterwards
    [Contains] still answers true exactly when the value occurred
    again further on. *)
Theorem Remove_then_Contains list str (i : nat) w :
  valid (mem w) (Items list) →
  elems (mem w) (Items list) !! i = Some str →
  (∀ j, j < i → elems (mem w) (Items list) !! j ≠ Some str) →
  ∃ list' w',
    Remove list str w = Some (list', w') ∧
    Contains list' str w'
    = Some (bool_decide (str ∈ drop (S i) (elems (mem w) (Items list))), w').
Proof.
  intros Hv Hi Hfirst. pose proof (elems_length _ _ Hv) as HL.
  assert (i < slen (Items list)) as Hlt by (apply lookup_lt_Some in Hi; lia).
  destruct (Remove_run list str i w Hv Hi Hfirst) as (w' & Hrun & _ & Hval & Hold & _).
  eexists _, w'. split; [done|].
  assert (Hv' : valid (mem w') (window (Items list) 0 (slen (Items list) - 1))).
  { apply valid_window; [by apply Hval|]. destruct Hv as (? & _). lia. }
  rewrite Contains_decides by done. simpl. do 2 f_equal.
  rewrite elems_shorter by (by apply Hval). rewrite Hold, <- HL.
  rewrite (assoc_L (++)), take_app_length'.
  2:{ rewrite length_app, length_take, length_drop. lia. }
  apply bool_decide_ext. rewrite elem_of_app. split; [|by right].
  intros [Hin|Hin]; [|done]. exfalso.
  apply list_elem_of_lookup in Hin as [j Hj].
  apply lookup_take_Some in Hj as [Hj Hji]. by apply (Hfirst j).
Qed.

(** X13.  [ToString] of a list with at least one item never fails and
    gives the items between double quotes, separated by commas,
    between brackets; it writes only to an array of its own, so every
    existing slice is as before. *)
Theorem ToString_renders_the_items list w :
  valid (mem w) (Items list) →
  elems (mem w) (Items list) ≠ [] →
  ∃ w',
    ToString list w = Some (rendering (elems (mem w) (Items list)), w') ∧
    env w' = env w ∧
    (∀ s', valid (mem w) s' →
       valid (mem w') s' ∧ elems (mem w') s' = elems (mem w) s').
Proof. apply ToString_nonempty. Qed.

(** ** Filters that keep every item *)

(** X14.  [Filter] with the function of the tests, which keeps every item
    changed by [strings.ToUpper]: the result has, position by position,
    the changed items, in an array the store did not have; the
    receiver and every other slice are as before. *)
Theorem Filter_with_toUpperOp (up : string → string) list w :
  valid (mem w) (Items list) →
  ∃ list' w',
    Filter growcap list (toUpperOp up) w = Some (list', w') ∧
    valid (mem w') (Items list') ∧
    elems (mem w') (Items list') = up <$> elems (mem w) (Items list) ∧
    env w' = env w ∧
    base (Items list') = Some (length (mem w)) ∧
    (∀ s', valid (mem w) s' →
       valid (mem w') s' ∧ elems (mem w') s' = elems (mem w) s').
Proof.
  intros Hv. destruct w as [h e]. simpl in *.
  destruct (collect_range growcap h e (Items list) (keep_mapped up)
    (λ i newItems,
       let* '(addItem, out) := toUpperOp up i (Items list) in
       if addItem : bool then
         let* newItems' := append growcap newItems out in ret (inl newItems')
       else ret (inl newItems)) Hv)
    as (items & w' & Hrun & Hbase & Hvi & Hel & Henv & Hframe).
  { intros k ns arr e0 Hk. unfold toUpperOp, keep_mapped. rewrite Nat2Z.id.
    destruct (lookup_lt_is_Some_2 (elems h (Items list)) k) as [item Hitem].
    { by rewrite elems_length. }
    unfold bind. rewrite (load_run _ _ item) by (simpl; by rewrite elems_alloc).
    by rewrite Hitem. }
  pose proof (calls_keep_mapped up e (elems h (Items list)) []) as Hcalls.
  simpl in Hcalls. rewrite Hcalls in Hel, Henv.
  unfold Filter. unfold bind in *.
  destruct (make 0 (len (Items list)) (World h e)) as [[items0 w0]|]; [|done].
  rewrite Hrun. eexists _, w'. split; [done|]. simpl. split_and!; done.
Qed.

Context `{!Regexp_engine}.

(** X15.  When the pattern compiles, [ReplaceAllFilter] returns no error and
    a list of the same length holding, position by position, what the
    engine's [ReplaceAllString] makes of each item, in an array the
    store did not have; the receiver and every other slice are as
    before. *)
Theorem ReplaceAllFilter_replaces_in_each (pattern repl : string) (re : Regexp)
    list w :
  Compile pattern = inl re →
  valid (mem w) (Items list) →
  ∃ list' w',
    ReplaceAllFilter growcap list pattern repl w = Some ((list', None), w') ∧
    valid (mem w') (Items list') ∧
    elems (mem w') (Items list')
    = (λ item, ReplaceAllString re item repl) <$> elems (mem w) (Items list) ∧
    len (Items list') = len (Items list) ∧
    env w' = env w ∧
    base (Items list') = Some (length (mem w)) ∧
    (∀ s', valid (mem w) s' →
       valid (mem w') s' ∧ elems (mem w') s' = elems (mem w) s').
Proof.
  intros Hre Hv. destruct w as [h e]. simpl in *.
  destruct (collect_range growcap h e (Items list)
    (keep_mapped (λ item, ReplaceAllString re item repl))
    (λ i newItems,
       let* item := load (Items list) i in
       let newString := ReplaceAllString re item repl in
       let* newItems' := append growcap newItems newString in
       ret (inl newItems')) Hv)
    as (items & w' & Hrun & Hbase & Hvi & Hel & Henv & Hframe).
  { intros k ns arr e0 Hk. unfold keep_mapped. rewrite Nat2Z.id.
    destruct (lookup_lt_is_Some_2 (elems h (Items list)) k) as [item Hitem].
    { by rewrite elems_length. }
    unfold bind. rewrite (load_run _ _ item) by (simpl; by rewrite elems_alloc).
    by rewrite Hitem. }
  pose proof (calls_keep_mapped (λ item, ReplaceAllString re item repl) e
                (elems h (Items list)) []) as Hcalls.
  simpl in Hcalls. rewrite Hcalls in Hel, Henv.
  unfold ReplaceAllFilter. unfold bind in *.
  destruct (make 0 (len (Items list)) (World h e)) as [[items0 w0]|]; [|done].
  rewrite Hre, Hrun. eexists _, w'. split; [done|]. simpl.
  split_and!; try done.
  unfold len. rewrite <- (elems_length _ _ Hvi), <- (elems_length _ _ Hv), Hel.
  simpl. by rewrite length_fmap.
Qed.

End Further.

(** ** The earlier revision *)

Section Earlier_facts.

Context {E : Type}.
Variable growcap : nat → nat → nat.
Implicit Types (w : @world E) (list : StringList) (str v : string).

(** X16.  The earlier [Insert] has no check: with an index below 0 or
    above the length it panics, whatever the list. *)
Theorem Earlier_Insert_panics_out_of_range list v (index : Z) w :
  valid (mem w) (Items list) →
  (index < 0 ∨ index > len (Items list))%Z →
  Earlier.Insert growcap list v index w = None.
Proof.
  intros Hv Hout. unfold Earlier.Insert, bind.
  destruct (append_spec growcap _ v w Hv)
    as (s1 & w1 & a1 & -> & _ & Hl1 & Hv1 & _).
  unfold len in *. rewrite Hl1.
  unfold reslice at 1.
  destruct (decide (0 ≤ index ≤ Z.of_nat (S (slen (Items list)))
                    ∧ Z.of_nat (S (slen (Items list))) ≤ cap s1)%Z) as [Hin|]; [|done].
  unfold reslice. rewrite decide_False; [done|]. lia.
Qed.

(** X17.  The earlier [Insert] on a list whose array is full, with an
    index in range, returns with nothing changed for the caller: the
    item goes to a new array that is dropped, and every existing
    slice, the list among them, keeps its elements. *)
Theorem Earlier_Insert_is_lost list v (index : Z) w :
  valid (mem w) (Items list) →
  (0 ≤ index ≤ len (Items list))%Z →
  slen (Items list) = scap (Items list) →
  ∃ w',
    Earlier.Insert growcap list v index w = Some (tt, w') ∧
    env w' = env w ∧
    ∀ s', valid (mem w) s' →
      valid (mem w') s' ∧ elems (mem w') s' = elems (mem w) s'.
Proof.
  intros Hv Hi Hfull. unfold len in Hi.
  assert (∃ k : nat, index = Z.of_nat k) as [k ->]
    by (exists (Z.to_nat index); lia).
  unfold Earlier.Insert, bind.
  destruct (append_spec growcap _ v w Hv)
    as (s1 & w1 & a1 & Happ & Hb1 & Hl1 & Hv1 & He1 & Henv1 & _ & Hval1 & Hfr1).
  destruct (append_full growcap (Items list) v w) as (c & w1' & Happ'); [lia|].
  rewrite Happ. rewrite Happ in Happ'. injection Happ' as Hs1 _.
  replace (Z.of_nat k + 1)%Z with (Z.of_nat (S k)) by lia.
  unfold len. pose proof Hv1 as (Hlc1 & _).
  rewrite !reslice_run by lia.
  destruct (copy_within s1 k (S k) w1 Hv1) as (n & w2 & Hcopy & Henv2 & Hv2 & _);
    [lia|lia|]. rewrite Hcopy.
  destruct (store_spec s1 k v w2 (Hv2 _ Hv1)) as (w3 & -> & Henv3 & Hv3 & _ & Hfr3);
    [lia|].
  exists w3. split; [done|]. split; [congruence|].
  intros s' Hs'. split; [by apply Hv3, Hv2, Hval1|].
  assert (base s' ≠ base s1) as Hne.
  { rewrite Hs1. simpl. by apply valid_base_lt. }
  rewrite Hfr3 by done. rewrite (copy_other _ _ s' _ _ _ Hcopy) by done.
  apply Hfr1; [done|]. right. lia.
Qed.

(** X18.  The earlier [Remove] shifts the items in the array but cannot
    shorten the caller's list: the list keeps its length and shows the
    items without the first occurrence of the value, then the old last
    item once more.  With the value absent nothing changes. *)
Theorem Earlier_Remove_keeps_the_length list str w :
  valid (mem w) (Items list) →
  (str ∉ elems (mem w) (Items list) → Earlier.Remove list str w = Some (tt, w)) ∧
  (∀ i, elems (mem w) (Items list) !! i = Some str →
        (∀ j, j < i → elems (mem w) (Items list) !! j ≠ Some str) →
     ∃ w' last,
       Earlier.Remove list str w = Some (tt, w') ∧
       elems (mem w) (Items list) !! (slen (Items list) - 1) = Some last ∧
       elems (mem w') (Items list)
       = take i (elems (mem w) (Items list))
         ++ drop (S i) (elems (mem w) (Items list)) ++ [last]).
Proof.
  intros Hv. pose proof (elems_length _ _ Hv) as HL.
  unfold Earlier.Remove, bind. rewrite IndexOf_run by done. split.
  - intros Habsent. apply first_index_None in Habsent. by rewrite Habsent.
  - intros i Hi Hfirst.
    assert (first_index str (elems (mem w) (Items list)) = Some i) as ->
      by (by apply first_index_Some).
    simpl. assert (i < slen (Items list)) as Hlt
      by (apply lookup_lt_Some in Hi; lia).
    destruct (lookup_lt_is_Some_2 (elems (mem w) (Items list)) (slen (Items list) - 1))
      as [last Hlast]; [lia|].
    replace (Z.of_nat i <? 0)%Z with false by (symmetry; apply Z.ltb_ge; lia).
    replace (Z.of_nat i + 1)%Z with (Z.of_nat (S i)) by lia.
    replace (len (Items list) - 1)%Z with (Z.of_nat (slen (Items list) - 1))
      by (unfold len; lia).
    unfold len. pose proof Hv as (Hlc & _).
    rewrite !reslice_run by lia.
    destruct (copy_within (Items list) i (S i) w Hv)
      as (n & w1 & -> & _ & _ & He1); [lia|lia|].
    change (Z.of_nat 0) with 0%Z.
    rewrite (reslice_run _ 0 (slen (Items list) - 1)) by lia.
    exists w1, last. split; [done|]. split; [done|].
    rewrite He1, <- HL, shift_left_whole by lia. do 2 f_equal.
    rewrite HL, (drop_S _ _ _ Hlast). by rewrite drop_ge by lia.
Qed.

Context `{!Regexp_engine}.

(** X19.  The earlier [MatchFilter] meets the pattern only when it has
    an item to match: with a pattern that does not compile it returns
    the engine's error if the list has an item, and no error at all if
    the list is empty; the list returned is empty in both cases. *)
Theorem Earlier_MatchFilter_error_needs_an_item list (pattern : string)
    (err : error) w :
  Compile pattern = inr err →
  valid (mem w) (Items list) →
  ∃ list' w',
    Earlier.MatchFilter growcap list pattern w
    = Some ((list', if decide (elems (mem w) (Items list) = [])
                    then None else Some err), w') ∧
    elems (mem w') (Items list') = [] ∧
    env w' = env w.
Proof.
  intros Herr Hv. pose proof (elems_length _ _ Hv) as HL.
  unfold Earlier.MatchFilter, bind at 1, len. change 0%Z with (Z.of_nat 0).
  rewrite make_run by lia. unfold for_range.
  destruct (elems (mem w) (Items list)) as [|item L] eqn:HeqL.
  - simpl in HL. rewrite <- HL. simpl. eexists _, _. split; [done|].
    by split.
  - simpl in HL. rewrite <- HL. rewrite decide_False by done.
    unfold bind at 1. rewrite for_loop_S. unfold bind at 1.
    rewrite (load_run _ 0 item).
    2:{ simpl. rewrite elems_alloc by done. by rewrite HeqL. }
    unfold Earlier.regexp_MatchString. rewrite Herr. simpl.
    eexists _, _. split; [done|]. by split.
Qed.

End Earlier_facts.

(** ** More scenarios *)

Section More_scenarios.

#[local] Existing Instance Engine.engine.

(** "e" appended to ["a", "b", "d"]. *)
Lemma Append_adds_last_witness :
  ∃ list' w',
    Append spare_as_before (list_at 0 3) "e" (store_of [["a"; "b"; "d"]])
    = Some (list', w') ∧
    elems (mem w') (Items list') = ["a"; "b"; "d"; "e"] ∧
    IsEmpty list' w' = Some (false, w').
Proof.
  destruct (Append_adds_last spare_as_before (list_at 0 3) "e"
              (store_of [["a"; "b"; "d"]]))
    as (list' & w' & Hrun & _ & Hel & _ & Hempty & _).
  - by eapply valid_list_at.
  - exists list', w'. split; [exact Hrun|]. split; [|exact Hempty].
    rewrite Hel. reflexivity.
Defined.

(** The two lists of [TestIsEqual], and then a longer one. *)
Lemma IsEqual_decides_equality_witness :
  IsEqual (list_at 0 3) (list_at 1 3)
    (store_of [["a"; "b"; "c"]; ["a"; "b"; "c"]; ["a"; "b"; "c"; "d"]])
  = Some (true, store_of [["a"; "b"; "c"]; ["a"; "b"; "c"]; ["a"; "b"; "c"; "d"]]) ∧
  IsEqual (list_at 0 3) (list_at 2 4)
    (store_of [["a"; "b"; "c"]; ["a"; "b"; "c"]; ["a"; "b"; "c"; "d"]])
  = Some (false, store_of [["a"; "b"; "c"]; ["a"; "b"; "c"]; ["a"; "b"; "c"; "d"]]).
Proof.
  split.
  - rewrite IsEqual_decides_equality; [reflexivity| |]; by eapply valid_list_at.
  - rewrite IsEqual_decides_equality; [reflexivity| |]; by eapply valid_list_at.
Defined.

(** [TestIndexOf]: "c" in ["a", "b", "c", "d"]. *)
Lemma IndexOf_finds_first_witness :
  ∃ i : Z,
    IndexOf (list_at 0 4) "c" (store_of [["a"; "b"; "c"; "d"]])
    = Some (i, store_of [["a"; "b"; "c"; "d"]]) ∧
    ((i = (-1)%Z ∧ "c" ∉ ["a"; "b"; "c"; "d"]) ∨
     ((0 ≤ i)%Z ∧ ["a"; "b"; "c"; "d"] !! Z.to_nat i = Some "c" ∧
      ∀ j, j < Z.to_nat i → ["a"; "b"; "c"; "d"] !! j ≠ Some "c")).
Proof.
  apply (IndexOf_finds_first (list_at 0 4) "c" (store_of [["a"; "b"; "c"; "d"]])).
  by eapply valid_list_at.
Defined.

(** [TestContains]: "c" and then "foo" in ["a", "b", "c", "d"]. *)
Lemma Contains_iff_member_witness :
  Contains (list_at 0 4) "c" (store_of [["a"; "b"; "c"; "d"]])
  = Some (true, store_of [["a"; "b"; "c"; "d"]]) ∧
  Contains (list_at 0 4) "foo" (store_of [["a"; "b"; "c"; "d"]])
  = Some (false, store_of [["a"; "b"; "c"; "d"]]).
Proof.
  split.
  - rewrite Contains_iff_member; [reflexivity|by eapply valid_list_at].
  - rewrite Contains_iff_member; [reflexivity|by eapply valid_list_at].
Defined.

Lemma c_not_in_a_b : "c" ∉ take (Z.to_nat 2) (elems [["a"; "b"; "d"]] (Items (list_at 0 3))).
Proof.
  intros Hin. simpl in Hin.
  apply elem_of_cons in Hin as [Hin|Hin]; [discriminate|].
  apply elem_of_cons in Hin as [Hin|Hin]; [discriminate|].
  by apply elem_of_nil in Hin.
Qed.

(** "c" inserted at index 2 of ["a", "b", "d"], then removed. *)
Lemma Insert_then_Remove_witness :
  ∃ list1 w1 list2 w2,
    Insert spare_as_before (list_at 0 3) "c" 2 (store_of [["a"; "b"; "d"]])
    = Some ((list1, None), w1) ∧
    Remove list1 "c" w1 = Some (list2, w2) ∧
    elems (mem w2) (Items list2) = ["a"; "b"; "d"].
Proof.
  destruct (Insert_then_Remove spare_as_before (list_at 0 3) "c" 2
              (store_of [["a"; "b"; "d"]]))
    as (l1 & w1 & l2 & w2 & Hins & Hrem & _ & Hel).
  - by eapply valid_list_at.
  - unfold len. simpl. lia.
  - exact c_not_in_a_b.
  - exists l1, w1, l2, w2. split; [exact Hins|]. split; [exact Hrem|].
    rewrite Hel. reflexivity.
Defined.

(** "c" inserted at index 2 of ["a", "b", "d"], then looked up. *)
Lemma Insert_then_lookup_witness :
  ∃ list1 w1,
    Insert spare_as_before (list_at 0 3) "c" 2 (store_of [["a"; "b"; "d"]])
    = Some ((list1, None), w1) ∧
    Contains list1 "c" w1 = Some (true, w1) ∧
    IndexOf list1 "c" w1 = Some (2%Z, w1).
Proof.
  destruct (Insert_then_lookup spare_as_before (list_at 0 3) "c" 2
              (store_of [["a"; "b"; "d"]]))
    as (l1 & w1 & i & Hins & Hc & Hi & _ & Hexact).
  - by eapply valid_list_at.
  - unfold len. simpl. lia.
  - exists l1, w1. split; [exact Hins|]. split; [exact Hc|].
    rewrite <- (Hexact c_not_in_a_b). exact Hi.
Defined.

(** A list of three items in an array of four: "c" inserted at index 2
    stays in the array, and the former header shows "c" where "d" was. *)
Lemma Insert_and_the_array_witness :
  ∃ list' w',
    Insert spare_as_before {| Items := Slice (Some 0) 0 3 4 |} "c" 2
      (store_of [["a"; "b"; "d"; ""]])
    = Some ((list', None), w') ∧
    base (Items list') = Some 0 ∧
    elems (mem w') (Slice (Some 0) 0 3 4) = ["a"; "b"; "c"] ∧
    elems (mem w') (Items list') = ["a"; "b"; "c"; "d"].
Proof.
  destruct (Insert_and_the_array spare_as_before
              {| Items := Slice (Some 0) 0 3 4 |} "c" 2
              (store_of [["a"; "b"; "d"; ""]]))
    as (list' & w' & Hrun & Hroom & _).
  - unfold valid, array_of. simpl. lia.
  - unfold len. simpl. lia.
  - destruct Hroom as [Hbase Hold]; [simpl; lia|].
    exists list', w'. split; [exact Hrun|]. split; [exact Hbase|].
    split; [exact Hold|].
    vm_compute in Hrun. injection Hrun as <- <-. reflexivity.
Defined.

(** "c" removed from ["a", "b", "c", "d"]: the array then holds
    "a", "b", "d", "d". *)
Lemma Remove_and_the_array_witness :
  ∃ list' w',
    Remove (list_at 0 4) "c" (store_of [["a"; "b"; "c"; "d"]]) = Some (list', w') ∧
    Items list' = Slice (Some 0) 0 3 4 ∧
    elems (mem w') (Items (list_at 0 4)) = ["a"; "b"; "d"; "d"].
Proof.
  destruct (Remove_and_the_array (list_at 0 4) "c" 2
              (store_of [["a"; "b"; "c"; "d"]]))
    as (list' & w' & last & Hrun & Hb & Ho & Hc & Hl & Hlast & Hold & _).
  - by eapply valid_list_at.
  - reflexivity.
  - intros [|[|j]] Hj; simpl; (done || lia).
  - exists list', w'. split; [exact Hrun|]. split.
    + destruct list' as [[b o n c]]. simpl in *.
      injection Hl as ->. by rewrite Hb, Ho, Hc.
    + rewrite Hold. simpl in Hlast. injection Hlast as <-. reflexivity.
Defined.

Lemma c_in_a_to_e :
  "c" ∈ elems [["a"; "b"; "c"; "d"; "e"]] (Items (list_at 0 5)).
Proof. apply list_elem_of_lookup. by exists 2. Qed.

(** Scenario 4 again: what is left of ["a", "b", "c", "d", "e"] and
    "c" make up the old list. *)
Lemma RemoveUnordered_keeps_the_others_witness :
  ∃ list' w',
    RemoveUnordered (list_at 0 5) "c" (store_of [["a"; "b"; "c"; "d"; "e"]])
    = Some (list', w') ∧
    "c" :: elems (mem w') (Items list') ≡ₚ ["a"; "b"; "c"; "d"; "e"] ∧
    length (elems (mem w') (Items list')) = 4.
Proof.
  destruct (RemoveUnordered_keeps_the_others (list_at 0 5) "c"
              (store_of [["a"; "b"; "c"; "d"; "e"]]))
    as (list' & w' & Hrun & _ & Hperm & Hlen).
  - by eapply valid_list_at.
  - exact c_in_a_to_e.
  - exists list', w'. split; [exact Hrun|]. split; [exact Hperm|].
    simpl in Hlen. by injection Hlen.
Defined.

(** [TestFilter]: the upper-casing filter on ["a", "b", "c", "d"]. *)
Lemma Filter_with_toUpperOp_witness :
  ∃ list' w',
    Filter spare_as_before (list_at 0 4) (toUpperOp ToUpper)
      (store_of [["a"; "b"; "c"; "d"]])
    = Some (list', w') ∧
    elems (mem w') (Items list') = ["A"; "B"; "C"; "D"].
Proof.
  destruct (Filter_with_toUpperOp spare_as_before ToUpper (list_at 0 4)
              (store_of [["a"; "b"; "c"; "d"]]))
    as (list' & w' & Hrun & _ & Hel & _).
  - by eapply valid_list_at.
  - exists list', w'. split; [exact Hrun|]. rewrite Hel. reflexivity.
Defined.

(** [TestReplaceFilter], scenario 6: "a" replaced by "A". *)
Lemma ReplaceAllFilter_replaces_in_each_witness :
  ∃ list' w',
    ReplaceAllFilter spare_as_before (list_at 0 4) "a" "A"
      (store_of [["apple"; "Banana"; "orange"; "Pear"]])
    = Some ((list', None), w') ∧
    elems (mem w') (Items list') = ["Apple"; "BAnAnA"; "orAnge"; "PeAr"].
Proof.
  destruct (@ReplaceAllFilter_replaces_in_each unit spare_as_before Engine.engine
              "a" "A" [(Engine.Lit "a"%char, false)] (list_at 0 4)
              (store_of [["apple"; "Banana"; "orange"; "Pear"]]))
    as (list' & w' & Hrun & _ & Hel & _).
  - reflexivity.
  - by eapply valid_list_at.
  - exists list', w'. split; [exact Hrun|]. rewrite Hel. reflexivity.
Defined.

(** The rendering of ["a", "b"]. *)
Lemma ToString_renders_the_items_witness :
  ∃ w',
    ToString (list_at 0 2) (store_of [["a"; "b"]])
    = Some ("[" +:+ quoted "a" +:+ "," +:+ quoted "b" +:+ "]", w').
Proof.
  destruct (ToString_renders_the_items (list_at 0 2) (store_of [["a"; "b"]]))
    as (w' & Hrun & _).
  - by eapply valid_list_at.
  - discriminate.
  - exists w'. exact Hrun.
Defined.

(** "c" removed from ["a", "b", "c", "d"] is gone; removed from
    ["a", "c", "b", "c"] it is still there. *)
Lemma Remove_then_Contains_witness :
  (∃ list' w',
     Remove (list_at 0 4) "c" (store_of [["a"; "b"; "c"; "d"]]) = Some (list', w') ∧
     Contains list' "c" w' = Some (false, w')) ∧
  (∃ list' w',
     Remove (list_at 0 4) "c" (store_of [["a"; "c"; "b"; "c"]]) = Some (list', w') ∧
     Contains list' "c" w' = Some (true, w')).
Proof.
  split.
  - destruct (Remove_then_Contains (list_at 0 4) "c" 2
                (store_of [["a"; "b"; "c"; "d"]])) as (list' & w' & Hrun & Hc).
    + by eapply valid_list_at.
    + reflexivity.
    + intros [|[|j]] Hj; simpl; (done || lia).
    + exists list', w'. split; [exact Hrun|]. rewrite Hc. reflexivity.
  - destruct (Remove_then_Contains (list_at 0 4) "c" 1
                (store_of [["a"; "c"; "b"; "c"]])) as (list' & w' & Hrun & Hc).
    + by eapply valid_list_at.
    + reflexivity.
    + intros [|j] Hj; simpl; (done || lia).
    + exists list', w'. split; [exact Hrun|]. rewrite Hc. reflexivity.
Defined.

(** The earlier [Insert] with index -1 and with index length + 1. *)
Lemma Earlier_Insert_panics_out_of_range_witness :
  Earlier.Insert spare_as_before (list_at 0 3) "c" (-1) (store_of [["a"; "b"; "d"]])
  = None ∧
  Earlier.Insert spare_as_before (list_at 0 3) "c" (3 + 1) (store_of [["a"; "b"; "d"]])
  = None.
Proof.
  split; apply Earlier_Insert_panics_out_of_range;
    try (by eapply valid_list_at); unfold len; simpl; lia.
Defined.

(** The earlier [Insert] of "c" at index 2 of ["a", "b", "d"], a list
    that fills its array. *)
Lemma Earlier_Insert_is_lost_witness :
  ∃ w',
    Earlier.Insert spare_as_before (list_at 0 3) "c" 2 (store_of [["a"; "b"; "d"]])
    = Some (tt, w') ∧
    elems (mem w') (Items (list_at 0 3)) = ["a"; "b"; "d"].
Proof.
  destruct (Earlier_Insert_is_lost spare_as_before (list_at 0 3) "c" 2
              (store_of [["a"; "b"; "d"]])) as (w' & Hrun & _ & Hframe).
  - by eapply valid_list_at.
  - unfold len. simpl. lia.
  - reflexivity.
  - exists w'. split; [exact Hrun|].
    destruct (Hframe (Items (list_at 0 3))) as [_ ->]; [|reflexivity].
    by eapply valid_list_at.
Defined.

(** The earlier [Remove] of "c" from ["a", "b", "c", "d"]. *)
Lemma Earlier_Remove_keeps_the_length_witness :
  ∃ w',
    Earlier.Remove (list_at 0 4) "c" (store_of [["a"; "b"; "c"; "d"]])
    = Some (tt, w') ∧
    elems (mem w') (Items (list_at 0 4)) = ["a"; "b"; "d"; "d"].
Proof.
  destruct (Earlier_Remove_keeps_the_length (list_at 0 4) "c"
              (store_of [["a"; "b"; "c"; "d"]])) as [_ Hpresent].
  - by eapply valid_list_at.
  - destruct (Hpresent 2) as (w' & last & Hrun & Hlast & Hel).
    + reflexivity.
    + intros [|[|j]] Hj; simpl; (done || lia).
    + exists w'. split; [exact Hrun|]. rewrite Hel.
      simpl in Hlast. injection Hlast as <-. reflexivity.
Defined.

(** The earlier [MatchFilter] with an unclosed bracket: on a list of
    four items, and on an empty list. *)
Lemma Earlier_MatchFilter_error_needs_an_item_witness :
  (∃ list' w',
     Earlier.MatchFilter spare_as_before (list_at 0 4) "[a"
       (store_of [["apple"; "Banana"; "orange"; "Pear"]])
     = Some ((list', Some "error parsing regexp: missing closing ]: `[a`"), w')) ∧
  (∃ list' w',
     Earlier.MatchFilter spare_as_before (list_at 0 0) "[a" (store_of [[]])
     = Some ((list', None), w')).
Proof.
  split.
  - destruct (@Earlier_MatchFilter_error_needs_an_item unit spare_as_before
                Engine.engine (list_at 0 4) "[a"
                "error parsing regexp: missing closing ]: `[a`"
                (store_of [["apple"; "Banana"; "orange"; "Pear"]]))
      as (list' & w' & Hrun & _).
    + reflexivity.
    + by eapply valid_list_at.
    + exists list', w'. exact Hrun.
  - destruct (@Earlier_MatchFilter_error_needs_an_item unit spare_as_before
                Engine.engine (list_at 0 0) "[a"
                "error parsing regexp: missing closing ]: `[a`"
                (store_of [[]]))
      as (list' & w' & Hrun & _).
    + reflexivity.
    + by eapply valid_list_at.
    + exists list', w'. exact Hrun.
Defined.

End More_scenarios.
